(** * Init-only classes: the reference polyfill, embedded and verified

    The program is the reference polyfill printed at the end of
    [Explainer.md] (it is imported as [polyfill/index.js] by the examples):
    [isThenable], [markInitOnly], [init] and [guardNewForInitOnly].

    The polyfill keeps all of its state in properties of the class object
    ([__isInitOnly], [__instance], [__inFlight], the accessor [instance]),
    allocates instances with [Reflect.construct], and hands out promises.
    The embedding therefore carries an explicit realm: a table of class
    objects, a heap of objects addressed by identity, a promise store, the
    console, and a log of the constructors and initializers the polyfill has
    run.  Every operation is a function from a realm to an outcome (a value
    or a thrown exception) and the realm it leaves behind: a throw keeps the
    writes made before it, as in JavaScript.

    User code -- constructor bodies, initializer bodies, the part of an
    [async] initializer after its first [await] -- is a program that can read
    and write the heap, allocate, print, throw, and call back into the
    polyfill ([init], [new], [markInitOnly], the [instance] accessor) and
    look at the outcome of each call.  Calls nest, so [init] and [new] carry
    the call-stack depth that is left; with none left they throw a
    RangeError, as engines do.

    Scope of the model.  Classes are declared with [class] and no [extends];
    they have no static member called [instance] and their instances carry no
    own field called [initializer].  User code does not write the polyfill's
    own properties of a class.  An [async] initializer awaits once.
    Numbers are integers. *)

From Stdlib Require Import ZArith.
From stdpp Require Import gmap strings list.

(** ** Values *)

Abbreviation ref := nat.
Abbreviation pref := nat.
Abbreviation cid := nat.

(** The sites at which the polyfill, or the engine on its behalf, throws a
    TypeError. *)
Inductive type_error :=
| MarkTargetNotClass
| ClassNotInitialized (n : string)
| InitTargetNotClass
| ClassNotInitOnly (n : string)
| MissingInitializer (n : string)
| ClassIsInitOnly (n : string)
| CannotRedefineInstance
| CannotDestructure.

Inductive value :=
| VUndefined
| VNull
| VBool (b : bool)
| VNum (n : Z)
| VStr (s : string)
| VFunction (f : nat)
| VObject (r : ref)
| VPromise (p : pref)
| VError (m : type_error).

Abbreviation fields := (gmap string value).

(** A heap object: the class whose prototype it has (none for an object
    literal) and its own fields. *)
Record object := Obj {
  proto : option cid;
  own : fields
}.

(** JavaScript's ToBoolean. *)
Definition truthy (x : value) : bool :=
  match x with
  | VUndefined | VNull => false
  | VBool b => b
  | VNum n => negb (Z.eqb n 0)
  | VStr s => negb (String.eqb s "")
  | VFunction _ | VObject _ | VPromise _ | VError _ => true
  end.

Definition is_function (x : value) : bool :=
  match x with VFunction _ => true | _ => false end.

(** [typeof x] is ['object'] or ['function'], for a non-null [x]. *)
Definition is_object (x : value) : bool :=
  match x with
  | VFunction _ | VObject _ | VPromise _ | VError _ => true
  | _ => false
  end.

(** The property read [x.then] on a truthy value: promises inherit the
    built-in [Promise.prototype.then]; an ordinary object answers with its own
    field; everything else has none. *)
Definition get_then (heap : list object) (x : value) : value :=
  match x with
  | VPromise _ => VFunction 0
  | VObject r =>
      match heap !! r with
      | Some ob => default VUndefined (own ob !! "then")
      | None => VUndefined
      end
  | _ => VUndefined
  end.

(** [function isThenable(x) { return x && typeof x.then === 'function'; }],
    as the condition of the [if] that consumes it. *)
Definition isThenable (heap : list object) (x : value) : bool :=
  truthy x && is_function (get_then heap x).

(** ** Callables and exceptions *)

Inductive callable :=
| Class (c : cid)
| Proxy (target : callable).

(** What [typeof x === 'function'] separates. *)
Inductive operand :=
| NotFunction
| Function (f : callable).

Inductive exn :=
| TypeError (m : type_error)
| RangeError
| Thrown (v : value).

(** The value a [catch], or a rejected promise, sees. *)
Definition exn_value (e : exn) : value :=
  match e with
  | TypeError m => VError m
  | RangeError => VStr "RangeError: Maximum call stack size exceeded"
  | Thrown v => v
  end.

Inductive outcome (A : Type) :=
| Ok (a : A)
| Throw (e : exn).
Arguments Ok {A} a.
Arguments Throw {A} e.

(** ** User code *)

(** A piece of user code that ends with an [A] or throws.  Each call into the
    polyfill hands its outcome to the rest of the code, which may rethrow it
    or carry on ([try]/[catch]). *)
Inductive prog (A : Type) : Type :=
| Ret (a : A)
| Raise (e : exn)
| DoRead (k : list object → prog A)
| DoWrite (o : ref) (key : string) (v : value) (k : prog A)
| DoAlloc (fs : fields) (k : ref → prog A)
| DoLog (s : string) (k : prog A)
| DoInit (ctor : operand) (args : list value) (k : outcome value → prog A)
| DoNew (f : callable) (args : list value) (k : outcome value → prog A)
| DoMarkInitOnly (C : operand) (k : outcome operand → prog A)
| DoInstance (f : callable) (k : outcome value → prog A).
Arguments Ret {A} a.
Arguments Raise {A} e.
Arguments DoRead {A} k.
Arguments DoWrite {A} o key v k.
Arguments DoAlloc {A} fs k.
Arguments DoLog {A} s k.
Arguments DoInit {A} ctor args k.
Arguments DoNew {A} f args k.
Arguments DoMarkInitOnly {A} C k.
Arguments DoInstance {A} f k.

(** How a call of an initializer returns: with a value that already exists,
    or (an [async] method) with a fresh promise, leaving the code after its
    first [await] to run later and settle it. *)
Inductive completion :=
| Return (v : value)
| ReturnAsync (k : prog value).

(** An initializer body gets the argument list and [this]. *)
Definition initializer_body := list value → ref → prog completion.

(** A constructor body gets the argument list and [this]; what it returns
    replaces [this] when it is an object. *)
Definition constructor_body := list value → ref → prog value.

(** The own property [initializer] of [C.prototype]. *)
Inductive member :=
| Method (body : initializer_body)
| NonCallable (v : value).

Record class_decl := ClassDecl {
  name : string;
  user_constructor : option constructor_body;
  field_defaults : fields;
  proto_initializer : option member;
  initPolicy : value
}.

(** ** The realm *)

(** A class object: its declaration and the own properties the polyfill
    writes on it.  [__inFlight] is [None] both when the property is absent and
    when it holds [null]. *)
Record class_state := ClassState {
  decl : class_decl;
  __isInitOnly : bool;
  __instance : option ref;
  __inFlight : option pref;
  instance_accessor : bool
}.

Inductive settlement :=
| Fulfill (v : value)
| Reject (e : value).

Inductive promise_cell :=
| AsyncBody (k : prog value)
| External
| Derived (src : pref) (c : cid) (o : ref)
| Settled (s : settlement).

(** [RanInitializer c o this args]: [init] on class [c] applied an initializer
    to object [o], whose fields were [this] at that moment, with [args]. *)
Inductive call_record :=
| RanConstructor (c : cid) (args : list value)
| RanInitializer (c : cid) (o : ref) (this : fields) (args : list value).

Record realm := Realm {
  classes : list class_state;
  heap : list object;
  promises : list promise_cell;
  console : list string;
  calls : list call_record
}.

Definition empty_realm : realm := Realm [] [] [] [] [].

(** ** The operation monad *)

Definition M (A : Type) : Type := realm → outcome A * realm.

Definition ret {A} (a : A) : M A := fun r => (Ok a, r).
Definition throw {A} (e : exn) : M A := fun r => (Throw e, r).
Definition bind {A B} (m : M A) (k : A → M B) : M B :=
  fun r => match m r with
           | (Ok a, r1) => k a r1
           | (Throw e, r1) => (Throw e, r1)
           end.
Definition get : M realm := fun r => (Ok r, r).
Definition modify (f : realm → realm) : M unit := fun r => (Ok tt, f r).

Declare Scope js_scope.
Delimit Scope js_scope with js.
Notation "'let*' x ':=' m 'in' k" := (bind m (fun x => k))
  (at level 10, x name, m at level 100, k at level 200) : js_scope.
Notation "m ';;' k" := (bind m (fun _ => k))
  (at level 100, k at level 200, right associativity) : js_scope.
Local Open Scope js_scope.

(** ** Realm updates *)

Definition set_classes (cs : list class_state) (r : realm) : realm :=
  Realm cs (heap r) (promises r) (console r) (calls r).
Definition set_heap (h : list object) (r : realm) : realm :=
  Realm (classes r) h (promises r) (console r) (calls r).
Definition set_promises (ps : list promise_cell) (r : realm) : realm :=
  Realm (classes r) (heap r) ps (console r) (calls r).
Definition warn (s : string) (r : realm) : realm :=
  Realm (classes r) (heap r) (promises r) (console r ++ [s]) (calls r).
Definition record_call (e : call_record) (r : realm) : realm :=
  Realm (classes r) (heap r) (promises r) (console r) (calls r ++ [e]).

Definition update_class (c : cid) (f : class_state → class_state) (r : realm) : realm :=
  set_classes (alter f c (classes r)) r.

Definition mark_isInitOnly (cs : class_state) : class_state :=
  ClassState (decl cs) true (__instance cs) (__inFlight cs) (instance_accessor cs).
Definition write_instance (o : ref) (cs : class_state) : class_state :=
  ClassState (decl cs) (__isInitOnly cs) (Some o) (__inFlight cs) (instance_accessor cs).
Definition write_inFlight (p : option pref) (cs : class_state) : class_state :=
  ClassState (decl cs) (__isInitOnly cs) (__instance cs) p (instance_accessor cs).
Definition define_instance_accessor (cs : class_state) : class_state :=
  ClassState (decl cs) (__isInitOnly cs) (__instance cs) (__inFlight cs) true.

Definition write_field (key : string) (v : value) (ob : object) : object :=
  Obj (proto ob) (<[key := v]> (own ob)).

(** A proxy without [get], [set] and [defineProperty] traps forwards property
    reads and writes to its target: every property access on a callable lands
    on the class at the bottom. *)
Fixpoint class_of (f : callable) : cid :=
  match f with
  | Class c => c
  | Proxy t => class_of t
  end.

Definition hasOwn_initializer (cs : class_state) : bool :=
  match proto_initializer (decl cs) with Some _ => true | None => false end.

(** [!!C.__isInitOnly || Object.prototype.hasOwnProperty.call(C.prototype, 'initializer')] *)
Definition isInitOnly (cs : class_state) : bool :=
  __isInitOnly cs || hasOwn_initializer cs.

(** ** markInitOnly and the [instance] accessor *)

Definition warning_no_initializer (n : string) : string :=
  String.append "[init-only] Class "
    (String.append (if String.eqb n "" then "<anonymous>" else n)
       " marked init-only but has no own 'initializer' method.").

(** [export function markInitOnly(C)].  [Object.defineProperty] refuses to
    replace the non-configurable accessor a previous call has installed. *)
Definition markInitOnly (C : operand) : M operand :=
  match C with
  | NotFunction => throw (TypeError MarkTargetNotClass)
  | Function f =>
      let c := class_of f in
      modify (update_class c mark_isInitOnly) ;;
      let* r := get in
      match classes r !! c with
      | None => throw (TypeError MarkTargetNotClass)
      | Some cs =>
          (if negb (hasOwn_initializer cs)
           then modify (warn (warning_no_initializer (name (decl cs))))
           else ret tt) ;;
          if instance_accessor cs then throw (TypeError CannotRedefineInstance)
          else
            modify (update_class c define_instance_accessor) ;;
            ret C
      end
  end.

(** The property read [C.instance]: the getter installed by [markInitOnly]
    when there is one, and [undefined] when the class has no such property. *)
Definition get_instance (f : callable) : M value :=
  let* r := get in
  match classes r !! class_of f with
  | None => throw (TypeError InitTargetNotClass)
  | Some cs =>
      if instance_accessor cs then
        match __instance cs with
        | None => throw (TypeError (ClassNotInitialized (name (decl cs))))
        | Some o => ret (VObject o)
        end
      else ret VUndefined
  end.

(** ** Running user code, construction and [init], given the nested calls *)

(** Appends a promise cell and returns its identity. *)
Definition new_promise (cell : promise_cell) : M pref :=
  let* r := get in
  modify (fun r => set_promises (promises r ++ [cell]) r) ;;
  ret (length (promises r)).

(** [Promise.resolve(maybe)]: a native promise is returned as it is, any
    other thenable is wrapped in a new promise that follows it. *)
Definition Promise_resolve (maybe : value) : M pref :=
  match maybe with
  | VPromise p => ret p
  | _ => new_promise External
  end.

(** What a constructor call yields: the object the body returned, or [this]. *)
Definition construct_result (this : ref) (v : value) : value :=
  if is_object v then v else VObject this.

(** The property read [o.initializer]: found on the prototype of [o]. *)
Definition get_initializer (r : realm) (o : value) : option member :=
  match o with
  | VObject a =>
      match heap r !! a with
      | Some ob =>
          match proto ob with
          | Some c =>
              match classes r !! c with
              | Some cs => proto_initializer (decl cs)
              | None => None
              end
          | None => None
          end
      | None => None
      end
  | _ => None
  end.

Section Nested.

(** What [init(...)] and [new ...] do when user code calls them. *)
Variable init_cb : operand → list value → M value.
Variable new_cb : callable → list value → M value.

Fixpoint exec {A} (p : prog A) (r : realm) {struct p} : outcome A * realm :=
  match p with
  | Ret a => (Ok a, r)
  | Raise e => (Throw e, r)
  | DoRead k => exec (k (heap r)) r
  | DoWrite o key v k => exec k (set_heap (alter (write_field key v) o (heap r)) r)
  | DoAlloc fs k => exec (k (length (heap r))) (set_heap (heap r ++ [Obj None fs]) r)
  | DoLog s k => exec k (warn s r)
  | DoInit ctor args k => let '(res, r1) := init_cb ctor args r in exec (k res) r1
  | DoNew f args k => let '(res, r1) := new_cb f args r in exec (k res) r1
  | DoMarkInitOnly C k => let '(res, r1) := markInitOnly C r in exec (k res) r1
  | DoInstance f k => let '(res, r1) := get_instance f r in exec (k res) r1
  end.

(** [[Construct]] of a class declared without [extends]: the new object, at
    the next free heap address, gets the class's prototype and field
    defaults; then the declared constructor (if any) runs on it. *)
Definition class_construct (c : cid) (args : list value) : M value :=
  let* r := get in
  match classes r !! c with
  | None => throw (TypeError InitTargetNotClass)
  | Some cs =>
      let o := length (heap r) in
      modify (fun r => set_heap (heap r ++ [Obj (Some c) (field_defaults (decl cs))]) r) ;;
      match user_constructor (decl cs) with
      | None => ret (VObject o)
      | Some body =>
          modify (record_call (RanConstructor c args)) ;;
          let* v := exec (body args o) in
          ret (construct_result o v)
      end
  end.

(** The [construct] trap of the handler built by [guardNewForInitOnly]; the
    last line of the trap, [Reflect.construct(target, args, newTarget)], is
    the parameter [Reflect_construct]. *)
Definition handler_construct (Reflect_construct : callable → list value → M value)
    (target : callable) (args : list value) : M value :=
  let* r := get in
  match classes r !! class_of target with
  | None => throw (TypeError InitTargetNotClass)
  | Some cs =>
      if isInitOnly cs then throw (TypeError (ClassIsInitOnly (name (decl cs))))
      else Reflect_construct target args
  end.

(** [Reflect.construct(f, args)]: a class constructs itself, a proxy runs its
    trap.  (The [newTarget] only selects the prototype of the new object, and
    a proxy's [prototype] is its target's.) *)
Fixpoint Reflect_construct (f : callable) (args : list value) : M value :=
  match f with
  | Class c => class_construct c args
  | Proxy target => handler_construct Reflect_construct target args
  end.

(** [initFn.apply(o, args)]; an [async] method returns the promise of its
    own pending body. *)
Definition apply_initializer (c : cid) (body : initializer_body) (o : ref)
    (args : list value) : M value :=
  let* r := get in
  modify (record_call (RanInitializer c o (default ∅ (own <$> heap r !! o)) args)) ;;
  let* how := exec (body args o) in
  match how with
  | Return v => ret v
  | ReturnAsync k => let* q := new_promise (AsyncBody k) in ret (VPromise q)
  end.

(** Lines 69-79 of [init]: a thenable result is tracked as the in-flight
    handle, anything else makes [o] the memoized instance at once. *)
Definition memoize_or_track (c : cid) (o : ref) (maybe : value) : M value :=
  let* r := get in
  if isThenable (heap r) maybe then
    let* src := Promise_resolve maybe in
    let* d := new_promise (Derived src c o) in
    modify (update_class c (write_inFlight (Some d))) ;;
    ret (VPromise d)
  else
    modify (update_class c (write_instance o)) ;;
    ret (VObject o).

(** Lines 59-79 of [init]: allocation, the [initializer] lookup and its
    call. *)
Definition initialize (f : callable) (cs : class_state) (args : list value) : M value :=
  let c := class_of f in
  let* o := Reflect_construct f [] in
  let* r1 := get in
  match o, get_initializer r1 o with
  | VObject a, Some (Method initFn) =>
      let policy :=
        if truthy (initPolicy (decl cs)) then initPolicy (decl cs)
        else VStr "return-first" in
      let* maybe := apply_initializer c initFn a args in
      memoize_or_track c a maybe
  | _, _ => throw (TypeError (MissingInitializer (name (decl cs))))
  end.

(** The body of [export function init(ctor, ...args)]. *)
Definition init_body (ctor : operand) (args : list value) : M value :=
  match ctor with
  | NotFunction => throw (TypeError InitTargetNotClass)
  | Function f =>
      let* r := get in
      match classes r !! class_of f with
      | None => throw (TypeError InitTargetNotClass)
      | Some cs =>
          if negb (isInitOnly cs)
          then throw (TypeError (ClassNotInitOnly (name (decl cs))))
          else
            match __instance cs with
            | Some o => ret (VObject o)
            | None =>
                match __inFlight cs with
                | Some p => ret (VPromise p)
                | None => initialize f cs args
                end
            end
      end
  end.

End Nested.

(** ** init and new *)

(** [init(ctor, ...args)] and [new f(...args)] with [stack] frames left.  User
    code they run makes its own calls with one frame less. *)
Fixpoint init (stack : nat) (ctor : operand) (args : list value) {struct stack} : M value :=
  match stack with
  | 0 => throw RangeError
  | S n => init_body (init n) (new n) ctor args
  end
with new (stack : nat) (f : callable) (args : list value) {struct stack} : M value :=
  match stack with
  | 0 => throw RangeError
  | S n => Reflect_construct (init n) (new n) f args
  end.

(** User code run with [stack] frames left. *)
Definition run_code {A} (stack : nat) (p : prog A) : M A :=
  exec (init stack) (new stack) p.

(** [export function guardNewForInitOnly(C) { ... return new Proxy(C, handler); }] *)
Definition guardNewForInitOnly (C : callable) : callable := Proxy C.

(** ** Promise jobs *)

(** The pending body of an [async] initializer runs to its end and settles
    the promise the call returned: fulfilled with what it returns (a promise
    resolved with a thenable follows it instead), rejected with what it
    throws. *)
Definition resume (stack : nat) (q : pref) (r : realm) : realm :=
  match promises r !! q with
  | Some (AsyncBody k) =>
      let '(res, r1) := run_code stack k r in
      let cell := match res with
                  | Ok v => if isThenable (heap r1) v then External
                            else Settled (Fulfill v)
                  | Throw e => Settled (Reject (exn_value e))
                  end in
      set_promises (<[q := cell]> (promises r1)) r1
  | _ => r
  end.

(** A foreign thenable calls back: the promise that follows it settles. *)
Definition settle_external (q : pref) (s : settlement) (r : realm) : realm :=
  match promises r !! q with
  | Some External => set_promises (<[q := Settled s]> (promises r)) r
  | _ => r
  end.

(** The callback [init] passes to [then]:
    [() => { ctor.__inFlight = null; ctor.__instance = o; return o; }] *)
Definition then_callback (c : cid) (o : ref) (r : realm) : realm :=
  update_class c (write_instance o) (update_class c (write_inFlight None) r).

(** The reaction job of [Promise.resolve(maybe).then(callback)], run once the
    source has settled.  On fulfilment the callback runs and the derived
    promise is resolved with what it returns, [o] (a promise resolved with a
    thenable follows it instead of being fulfilled).  [then] was given no
    rejection handler: on rejection the derived promise is rejected with the
    same reason and nothing else happens. *)
Definition react (d : pref) (r : realm) : realm :=
  match promises r !! d with
  | Some (Derived src c o) =>
      match promises r !! src with
      | Some (Settled (Fulfill _)) =>
          let r1 := then_callback c o r in
          let cell := if isThenable (heap r1) (VObject o) then External
                      else Settled (Fulfill (VObject o)) in
          set_promises (<[d := cell]> (promises r1)) r1
      | Some (Settled (Reject e)) =>
          set_promises (<[d := Settled (Reject e)]> (promises r)) r
      | _ => r
      end
  | _ => r
  end.

(** ** Programs: what the code around the polyfill does, one event at a time *)

Inductive event :=
| DefineClass (d : class_decl)
| CallMarkInitOnly (C : operand)
| CallInit (ctor : operand) (args : list value)
| CallNew (f : callable) (args : list value)
| ReadInstance (f : callable)
| Allocate (fs : fields)
| WriteField (o : ref) (k : string) (v : value)
| Script (p : prog value)
| Resume (q : pref)
| SettleExternal (q : pref) (s : settlement)
| React (d : pref).

Definition declare (d : class_decl) (r : realm) : realm :=
  set_classes (classes r ++ [ClassState d false None None false]) r.

(** One event, run by an engine that gives every top-level call [stack]
    frames. *)
Definition step (stack : nat) (e : event) (r : realm) : realm :=
  match e with
  | DefineClass d => declare d r
  | CallMarkInitOnly C => snd (markInitOnly C r)
  | CallInit ctor args => snd (init stack ctor args r)
  | CallNew f args => snd (new stack f args r)
  | ReadInstance f => snd (get_instance f r)
  | Allocate fs => set_heap (heap r ++ [Obj None fs]) r
  | WriteField o k v => set_heap (alter (write_field k v) o (heap r)) r
  | Script p => snd (run_code stack p r)
  | Resume q => resume stack q r
  | SettleExternal q s => settle_external q s r
  | React d => react d r
  end.

Definition run (stack : nat) (tr : list event) (r : realm) : realm :=
  foldl (fun r e => step stack e r) r tr.

(** How many times [init] on class [c] has called an initializer. *)
Definition is_initializer_run (c : cid) (e : call_record) : bool :=
  match e with
  | RanInitializer c' _ _ _ => Nat.eqb c c'
  | RanConstructor _ _ => false
  end.

Definition initializer_calls (c : cid) (l : list call_record) : list call_record :=
  filter (fun e => is_initializer_run c e = true) l.

Definition initializer_runs (c : cid) (r : realm) : nat :=
  length (initializer_calls c (calls r)).

(** ** The repository's examples as model programs *)

Module Examples.

(** The property read [x.port] on an object. *)
Definition port_of (h : list object) (a : ref) : value :=
  default VUndefined (h !! a ≫= (λ ob, own ob !! "port")).

(** [class App { initializer({ port }) { this.port = port; } start() {...} }].
    The parameter pattern [{ port }] throws a TypeError on [undefined] and
    [null]; on any other value without a field [port] it gives [undefined]. *)
Definition App_initializer : initializer_body :=
  fun args this =>
    match default VUndefined (head args) with
    | VUndefined | VNull => Raise (TypeError CannotDestructure)
    | VObject a =>
        DoRead (fun h => DoWrite this "port" (port_of h a) (Ret (Return VUndefined)))
    | _ => DoWrite this "port" VUndefined (Ret (Return VUndefined))
    end.

Definition App : class_decl :=
  ClassDecl "App" None ∅ (Some (Method App_initializer)) VUndefined.

(** [class DB { async initializer(url) { await delay(50); this.url = url;
    this.ready = true; } }] *)
Definition DB_initializer : initializer_body :=
  fun args this =>
    Ret (ReturnAsync
           (DoWrite this "url" (default VUndefined (head args))
              (DoWrite this "ready" (VBool true) (Ret VUndefined)))).

Definition DB : class_decl :=
  ClassDecl "DB" None ∅ (Some (Method DB_initializer)) VUndefined.

End Examples.

(** ** Predicates and example programs used in the statements *)

Definition is_react (d : pref) (e : event) : bool :=
  match e with React d' => Nat.eqb d d' | _ => false end.

(** No event of the trace runs the reaction job of [d]: [d] stays unsettled. *)
Definition unsettled_during (d : pref) (tr : list event) : bool :=
  negb (existsb (is_react d) tr).

(** Class [c] exists and has neither a memoized instance nor a handle. *)
Definition uninitialized (c : cid) (r : realm) : bool :=
  match classes r !! c with
  | Some cs =>
      match __instance cs, __inFlight cs with
      | None, None => true
      | _, _ => false
      end
  | None => false
  end.

(** Class [c] exists and passes the [isInitOnly] test of [init]. *)
Definition init_only (c : cid) (r : realm) : bool :=
  match classes r !! c with
  | Some cs => isInitOnly cs
  | None => false
  end.

(** The memoized instance of class [c], if any. *)
Definition instance_of (c : cid) (r : realm) : option ref :=
  classes r !! c ≫= __instance.

(** The in-flight handle of class [c], if any. *)
Definition inFlight_of (c : cid) (r : realm) : option pref :=
  classes r !! c ≫= __inFlight.

(** The own fields of heap object [o]. *)
Definition fields_of (o : ref) (r : realm) : option fields :=
  own <$> heap r !! o.

Module SyncExample.

(** [class Cfg { initializer(other) { this.ready = true; return other; } }]:
    the initializer returns a different, non-thenable object. *)
Definition Cfg_initializer : initializer_body :=
  fun args this =>
    DoWrite this "ready" (VBool true) (Ret (Return (default VUndefined (head args)))).

Definition Cfg : class_decl :=
  ClassDecl "Cfg" None ∅ (Some (Method Cfg_initializer)) VUndefined.

Definition start (stack : nat) : realm :=
  run stack [DefineClass Cfg; Allocate {["tag" := VStr "other"]}] empty_realm.

End SyncExample.

Module ConstructorExample.

(** [class Both { constructor() { this.built = true; } initializer() {} }] *)
Definition Both_constructor : constructor_body :=
  fun args this => DoWrite this "built" (VBool true) (Ret VUndefined).

Definition Both_initializer : initializer_body :=
  fun args this => Ret (Return VUndefined).

Definition Both : class_decl :=
  ClassDecl "Both" (Some Both_constructor) ∅ (Some (Method Both_initializer)) VUndefined.

Definition start (stack : nat) : realm := run stack [DefineClass Both] empty_realm.

End ConstructorExample.

Module RegistrationExample.

(** [class Plain {}]: neither constructor nor initializer. *)
Definition Plain : class_decl := ClassDecl "Plain" None ∅ None VUndefined.

Definition start (stack : nat) : realm :=
  run stack [DefineClass Plain; DefineClass ConstructorExample.Both] empty_realm.

End RegistrationExample.

(** An init-only class ([App], class 0: it has its own [initializer] and has
    been passed to [markInitOnly]) next to an ordinary one ([Plain], class 1). *)
Definition misuse_start (stack : nat) : realm :=
  run stack [DefineClass Examples.App; DefineClass RegistrationExample.Plain;
             CallMarkInitOnly (Function (Class 0))] empty_realm.

Module FailureExample.

(** [class Flaky { async initializer(mode) { await delay(1);
      if (mode === 'bad') throw 'boom'; this.ready = true; } }] *)
Definition Flaky_initializer : initializer_body :=
  fun args this =>
    Ret (ReturnAsync
           match head args with
           | Some (VStr "bad") => Raise (Thrown (VStr "boom"))
           | _ => DoWrite this "ready" (VBool true) (Ret VUndefined)
           end).

Definition Flaky : class_decl :=
  ClassDecl "Flaky" None ∅ (Some (Method Flaky_initializer)) VUndefined.

(** [init(Flaky, 'bad')] returns promise 1; the body (promise 0) rejects
    and the reaction job of promise 1 runs. *)
Definition after_failure (stack : nat) : realm :=
  run stack [DefineClass Flaky; CallInit (Function (Class 0)) [VStr "bad"];
             Resume 0; React 1] empty_realm.

End FailureExample.

Module StrictExample.

(** [class Settings { static [Symbol.initPolicy] = 'strict';
      initializer(opts) { this.opts = opts; } }] *)
Definition Settings_initializer : initializer_body :=
  fun args this =>
    DoWrite this "opts" (default VUndefined (head args)) (Ret (Return VUndefined)).

Definition Settings : class_decl :=
  ClassDecl "Settings" None ∅ (Some (Method Settings_initializer)) (VStr "strict").

Definition after_first (stack : nat) : realm :=
  run stack [DefineClass Settings; CallInit (Function (Class 0)) [VStr "prod"]] empty_realm.

End StrictExample.

Module ReentrantExample.

(** What user code keeps of the outcome of a call it made. *)
Definition kept (res : outcome value) : value :=
  match res with Ok v => v | Throw e => exn_value e end.

(** [class Twice { async initializer(x) {
        if (x === 'outer') this.inner = init(Twice, 'inner');
        await delay(1); this.x = x; } }], declared as class 0: the
    initializer calls [init] on its own class before its first [await]. *)
Definition Twice_initializer : initializer_body :=
  fun args this =>
    let rest := Ret (ReturnAsync
                       (DoWrite this "x" (default VUndefined (head args)) (Ret VUndefined))) in
    match head args with
    | Some (VStr "outer") =>
        DoInit (Function (Class 0)) [VStr "inner"]
          (fun res => DoWrite this "inner" (kept res) rest)
    | _ => rest
    end.

Definition Twice : class_decl :=
  ClassDecl "Twice" None ∅ (Some (Method Twice_initializer)) VUndefined.

(** [class Again { initializer(x) {
        if (x === 'outer') this.inner = init(Again, 'inner');
        this.x = x; } }], declared as class 0: the same, synchronously. *)
Definition Again_initializer : initializer_body :=
  fun args this =>
    let rest := DoWrite this "x" (default VUndefined (head args)) (Ret (Return VUndefined)) in
    match head args with
    | Some (VStr "outer") =>
        DoInit (Function (Class 0)) [VStr "inner"]
          (fun res => DoWrite this "inner" (kept res) rest)
    | _ => rest
    end.

Definition Again : class_decl :=
  ClassDecl "Again" None ∅ (Some (Method Again_initializer)) VUndefined.

End ReentrantExample.

(** [src/examples/async.js], for any two urls: the class declaration, the two
    calls of [init], and then the jobs [await p1] waits for (the body of the
    initializer, promise 0, and the reaction of the handle, promise 1). *)
Definition async_js_calls (url1 url2 : string) : list event :=
  [DefineClass Examples.DB;
   CallInit (Function (Class 0)) [VStr url1];
   CallInit (Function (Class 0)) [VStr url2]].

Definition async_js_await : list event := [Resume 0; React 1].

(** [guardNewForInitOnly] applied [n] times. *)
Definition guard_n (n : nat) (f : callable) : callable :=
  Nat.iter n guardNewForInitOnly f.

(** [typeof o.initializer === 'function'] for the instances of the class. *)
Definition has_callable_initializer (cs : class_state) : bool :=
  match proto_initializer (decl cs) with
  | Some (Method _) => true
  | _ => false
  end.

(** The class object [cs] with another value under [SymbolInitPolicy], chosen
    from the class name. *)
Definition set_policy (pol : string → value) (cs : class_state) : class_state :=
  ClassState
    (ClassDecl (name (decl cs)) (user_constructor (decl cs)) (field_defaults (decl cs))
       (proto_initializer (decl cs)) (pol (name (decl cs))))
    (__isInitOnly cs) (__instance cs) (__inFlight cs) (instance_accessor cs).

(** The realm in which every class has the policy [pol] gives it. *)
Definition with_policies (pol : string → value) (r : realm) : realm :=
  set_classes (set_policy pol <$> classes r) r.

(** ** How a realm may change during a call *)

(** What no call of [init] or [new] undoes: every class stays, with its
    declaration; no class is added; every promise cell stays as it is; the
    log of calls only grows. *)
Definition extends (r r' : realm) : Prop :=
  (∀ c cs, classes r !! c = Some cs →
           ∃ cs', classes r' !! c = Some cs' ∧ decl cs' = decl cs) ∧
  length (classes r') = length (classes r) ∧
  (∀ d cell, promises r !! d = Some cell → promises r' !! d = Some cell) ∧
  (∃ rest, calls r' = calls r ++ rest).

(** The operation [m] does the same in a realm with other policies. *)
Definition commutes {A} (pol : string → value) (m : M A) : Prop :=
  ∀ r, m (with_policies pol r) = (fst (m r), with_policies pol (snd (m r))).

(** ** Classes whose own code does not re-enter the polyfill *)

(** User code that calls neither [init] nor [new], and whose result, when it
    returns one, satisfies [Q]. *)
Inductive quiet {A} (Q : A → Prop) : prog A → Prop :=
| quiet_Ret a : Q a → quiet Q (Ret a)
| quiet_Raise e : quiet Q (Raise e)
| quiet_DoRead k : (∀ h, quiet Q (k h)) → quiet Q (DoRead k)
| quiet_DoWrite o key v k : quiet Q k → quiet Q (DoWrite o key v k)
| quiet_DoAlloc fs k : (∀ o, quiet Q (k o)) → quiet Q (DoAlloc fs k)
| quiet_DoLog s k : quiet Q k → quiet Q (DoLog s k)
| quiet_DoMarkInitOnly C k : (∀ res, quiet Q (k res)) → quiet Q (DoMarkInitOnly C k)
| quiet_DoInstance f k : (∀ res, quiet Q (k res)) → quiet Q (DoInstance f k).

(** A class is tame when its constructor, if it declares one, calls neither
    [init] nor [new] and does not return an object, and its initializer calls
    neither [init] nor [new] before it returns (after its first [await] it
    may). *)
Definition tame (D : class_decl) : Prop :=
  match user_constructor D with
  | Some body => ∀ args o, quiet (λ v, is_object v = false) (body args o)
  | None => True
  end ∧
  match proto_initializer D with
  | Some (Method body) => ∀ args o, quiet (λ _, True) (body args o)
  | _ => True
  end.

(** Class [c], if it exists, is tame. *)
Definition tame_at (c : cid) (r : realm) : Prop :=
  ∀ cs, classes r !! c = Some cs → tame (decl cs).

(** Every pending derived promise that carries the callback of class [c] is
    the in-flight handle of [c], and [c] has no memoized instance. *)
Definition single_handle (c : cid) (r : realm) : Prop :=
  ∀ d src o, promises r !! d = Some (Derived src c o) →
    ∃ cs, classes r !! c = Some cs ∧ __inFlight cs = Some d ∧ __instance cs = None ∧
          isInitOnly cs = true.

(** [cs'] keeps the declaration and the two slots of [cs]. *)
Definition keeps_slots (cs cs' : class_state) : Prop :=
  decl cs' = decl cs ∧ __inFlight cs' = __inFlight cs ∧ __instance cs' = __instance cs ∧
  (isInitOnly cs = true → isInitOnly cs' = true).

(** From [r] to [r'] nothing happened to class [c]: it keeps its slots, no
    promise cell changed, no derived promise of [c] appeared, and [init] on
    [c] called no initializer. *)
Definition foreign (c : cid) (r r' : realm) : Prop :=
  (∀ cs, classes r !! c = Some cs → ∃ cs', classes r' !! c = Some cs' ∧ keeps_slots cs cs') ∧
  (classes r !! c = None → classes r' !! c = None) ∧
  (∀ d cell, promises r !! d = Some cell → promises r' !! d = Some cell) ∧
  (∀ d src o, promises r' !! d = Some (Derived src c o) →
              promises r !! d = Some (Derived src c o)) ∧
  initializer_calls c (calls r') = initializer_calls c (calls r).

(** Class [c] exists and has neither instance nor handle. *)
Definition idle (c : cid) (r : realm) : Prop :=
  ∃ cs, classes r !! c = Some cs ∧ __instance cs = None ∧ __inFlight cs = None.

(** One thing that can happen to class [c] during a call: nothing, or an
    initialization attempt that started while [c] was idle. *)
Inductive cstep (c : cid) (r r' : realm) : Prop :=
| cstep_foreign : foreign c r r' → cstep c r r'
| cstep_attempt :
    idle c r → single_handle c r' →
    (∀ cs, classes r !! c = Some cs → ∃ cs', classes r' !! c = Some cs' ∧ decl cs' = decl cs) →
    (∀ d cell, promises r !! d = Some cell → promises r' !! d = Some cell) →
    cstep c r r'.

Inductive csteps (c : cid) : realm → realm → Prop :=
| csteps_refl r : csteps c r r
| csteps_step r1 r2 r3 : cstep c r1 r2 → csteps c r2 r3 → csteps c r1 r3.

(** Every object of [h] is still in [h'], with the same prototype. *)
Definition keeps_protos (h h' : list object) : Prop :=
  ∀ a ob, h !! a = Some ob → ∃ ob', h' !! a = Some ob' ∧ proto ob' = proto ob.

(** Class [c], declared as [D], passes the tests of [init], has neither
    instance nor handle, and no pending promise carries its callback. *)
Definition untouched (c : cid) (D : class_decl) (r : realm) : Prop :=
  (∃ cs, classes r !! c = Some cs ∧ decl cs = D ∧ __instance cs = None ∧
         __inFlight cs = None ∧ isInitOnly cs = true) ∧
  ∀ d src o, promises r !! d ≠ Some (Derived src c o).

(** Class [c] exists and has an instance or a handle. *)
Definition busy (c : cid) (r : realm) : Prop :=
  ∃ cs, classes r !! c = Some cs ∧ (__instance cs ≠ None ∨ __inFlight cs ≠ None).

(** From [r] to [r'] class [c] keeps its slots, [init] on [c] called no
    initializer, and the pending promises with the callback of [c] are still
    pending. *)
Definition undisturbed (c : cid) (r r' : realm) : Prop :=
  (∀ cs, classes r !! c = Some cs → ∃ cs', classes r' !! c = Some cs' ∧ keeps_slots cs cs') ∧
  initializer_calls c (calls r') = initializer_calls c (calls r) ∧
  (∀ d src o, promises r !! d = Some (Derived src c o) →
              promises r' !! d = Some (Derived src c o)).

(** Every class of [r] is in [r'] with the same declaration. *)
Definition keeps_decls (r r' : realm) : Prop :=
  ∀ c cs, classes r !! c = Some cs → ∃ cs', classes r' !! c = Some cs' ∧ decl cs' = decl cs.

(** ** Unfolding the operations *)

Ltac unfold_js :=
  unfold init_body, apply_initializer, Promise_resolve, new_promise, markInitOnly,
    get_instance, class_construct, handler_construct, run_code,
    bind, get, modify, ret, throw in *.

Arguments get_initializer : simpl never.

Ltac js_cases :=
  repeat (simpl in *; simplify_eq; try case_match).

(** ** A frame rule for user code

    A relation [R] between the realm before and after, established under a
    precondition [P] that it preserves: if the heap and console writes and
    [markInitOnly] are in [R], and the nested calls are, then so is every
    piece of user code, and every construction. *)

Section Frame.

Variable P : realm → Prop.
Variable R : realm → realm → Prop.
Hypothesis R_refl : ∀ r, R r r.
Hypothesis R_trans : ∀ r1 r2 r3, R r1 r2 → R r2 r3 → R r1 r3.
Hypothesis R_pres : ∀ r r', P r → R r r' → P r'.
Hypothesis R_heap : ∀ r h, P r → R r (set_heap h r).
Hypothesis R_warn : ∀ r s, P r → R r (warn s r).
Hypothesis R_mark : ∀ r C, P r → R r (snd (markInitOnly C r)).
Hypothesis R_ctor : ∀ r c args, P r → R r (record_call (RanConstructor c args) r).

Variable init_cb : operand → list value → M value.
Variable new_cb : callable → list value → M value.
Hypothesis R_init : ∀ ctor args r, P r → R r (snd (init_cb ctor args r)).
Hypothesis R_new : ∀ f args r, P r → R r (snd (new_cb f args r)).

Lemma get_instance_realm f r : snd (get_instance f r) = r.
Proof. unfold_js. by js_cases. Qed.

Lemma exec_frame {A} (p : prog A) r : P r → R r (snd (exec init_cb new_cb p r)).
Proof.
  revert r. induction p as [a | e | k IH | o key v k IH | fs k IH | s k IH
                            | ctor args k IH | f args k IH | C k IH | f k IH];
    intros r HP; simpl.
  - apply R_refl.
  - apply R_refl.
  - by apply IH.
  - eapply R_trans; [by apply R_heap | apply IH]. eapply R_pres; [done | by apply R_heap].
  - eapply R_trans; [by apply R_heap | apply IH]. eapply R_pres; [done | by apply R_heap].
  - eapply R_trans; [by apply R_warn | apply IH]. eapply R_pres; [done | by apply R_warn].
  - pose proof (R_init ctor args r HP) as H. destruct (init_cb ctor args r) as [res r1].
    eapply R_trans; [exact H | apply IH]. by eapply R_pres.
  - pose proof (R_new f args r HP) as H. destruct (new_cb f args r) as [res r1].
    eapply R_trans; [exact H | apply IH]. by eapply R_pres.
  - pose proof (R_mark r C HP) as H. destruct (markInitOnly C r) as [res r1].
    eapply R_trans; [exact H | apply IH]. by eapply R_pres.
  - pose proof (get_instance_realm f r) as H. destruct (get_instance f r) as [res r1].
    simpl in H. subst r1. by apply IH.
Qed.

Lemma class_construct_frame c args r :
  P r → R r (snd (class_construct init_cb new_cb c args r)).
Proof.
  intros HP. unfold class_construct, bind, get, modify, ret, throw. simpl.
  destruct (classes r !! c) as [cs|]; simpl; [| apply R_refl].
  set (r1 := set_heap _ r). assert (R r r1) as H1 by by apply R_heap.
  assert (P r1) as HP1 by by eapply R_pres.
  destruct (user_constructor (decl cs)) as [body|]; simpl; [| done].
  set (r2 := record_call _ r1). assert (R r1 r2) as H2 by by apply R_ctor.
  assert (P r2) as HP2 by by eapply R_pres.
  pose proof (exec_frame (body args (length (heap r))) r2 HP2) as H3.
  destruct (exec init_cb new_cb _ r2) as [[v|e] r3]; simpl in *;
    eapply R_trans; eauto.
Qed.

Lemma Reflect_construct_frame f args r :
  P r → R r (snd (Reflect_construct init_cb new_cb f args r)).
Proof.
  induction f as [c | t IH]; intros HP; simpl.
  - by apply class_construct_frame.
  - unfold handler_construct, bind, get, throw. simpl.
    destruct (classes r !! class_of t) as [cs|]; simpl; [| apply R_refl].
    destruct (isInitOnly cs); simpl; [apply R_refl | by apply IH].
Qed.

End Frame.

(** ** Classes and promise cells are never lost *)

Lemma extends_refl r : extends r r.
Proof. split; [eauto | split; [done | split; [done|]]]. exists []. by rewrite app_nil_r. Qed.

Lemma extends_trans r1 r2 r3 : extends r1 r2 → extends r2 r3 → extends r1 r3.
Proof.
  intros (Hc1 & Hl1 & Hp1 & l1 & Hk1) (Hc2 & Hl2 & Hp2 & l2 & Hk2).
  split; [| split; [congruence | split; [auto|]]].
  - intros c cs Hc. destruct (Hc1 c cs Hc) as (cs2 & Hcs2 & Hd2).
    destruct (Hc2 c cs2 Hcs2) as (cs3 & Hcs3 & Hd3). exists cs3. split; [done | congruence].
  - exists (l1 ++ l2). by rewrite Hk2, Hk1, app_assoc.
Qed.

Lemma extends_same r r' :
  classes r' = classes r → promises r' = promises r → calls r' = calls r → extends r r'.
Proof.
  intros Hc Hp Hk. unfold extends. rewrite Hc, Hp, Hk.
  split; [eauto | split; [done | split; [done|]]]. exists []. by rewrite app_nil_r.
Qed.

Lemma extends_record_call e r : extends r (record_call e r).
Proof. split; [eauto | split; [done | split; [done|]]]. by exists [e]. Qed.

Lemma extends_update_class c g r :
  (∀ cs, decl (g cs) = decl cs) → extends r (update_class c g r).
Proof.
  intros Hg. split; [| split; [apply length_alter | split; [done|]]].
  - intros c' cs Hc'. simpl. destruct (decide (c = c')) as [->|Hne].
    + exists (g cs). by rewrite list_lookup_alter_eq, Hc'.
    + exists cs. by rewrite list_lookup_alter_ne.
  - exists []. simpl. by rewrite app_nil_r.
Qed.

Lemma extends_new_promise cell r : extends r (set_promises (promises r ++ [cell]) r).
Proof.
  split; [eauto | split; [done | split]].
  - intros d c Hd. simpl. by apply lookup_app_l_Some.
  - exists []. simpl. by rewrite app_nil_r.
Qed.

Lemma extends_markInitOnly r C : extends r (snd (markInitOnly C r)).
Proof.
  destruct C as [|f]; [apply extends_refl|].
  unfold markInitOnly, bind, get, modify, ret, throw. simpl.
  assert (extends r (update_class (class_of f) mark_isInitOnly r)) as H1
    by by apply extends_update_class.
  destruct (alter mark_isInitOnly (class_of f) (classes r) !! class_of f) as [cs|];
    simpl; [| done].
  destruct (negb (hasOwn_initializer cs)); simpl; destruct (instance_accessor cs); simpl;
    try (eapply extends_trans; [exact H1 | by apply extends_same]).
  - eapply extends_trans; [exact H1|].
    eapply extends_trans;
      [apply (extends_same _ (warn (warning_no_initializer (name (decl cs)))
                                (update_class (class_of f) mark_isInitOnly r))); done|].
    by apply (extends_update_class (class_of f) define_instance_accessor).
  - eapply extends_trans; [exact H1|].
    by apply (extends_update_class (class_of f) define_instance_accessor).
Qed.

Lemma exec_extends init_cb new_cb {A} (p : prog A) r :
  (∀ ctor args r, extends r (snd (init_cb ctor args r))) →
  (∀ f args r, extends r (snd (new_cb f args r))) →
  extends r (snd (exec init_cb new_cb p r)).
Proof.
  intros Hi Hn.
  apply (exec_frame (λ _, True) extends); auto using extends_refl, extends_markInitOnly.
  - apply extends_trans.
  - intros. by apply extends_same.
  - intros. by apply extends_same.
Qed.

Lemma Reflect_construct_extends init_cb new_cb f args r :
  (∀ ctor args r, extends r (snd (init_cb ctor args r))) →
  (∀ f args r, extends r (snd (new_cb f args r))) →
  extends r (snd (Reflect_construct init_cb new_cb f args r)).
Proof.
  intros Hi Hn.
  apply (Reflect_construct_frame (λ _, True) extends);
    auto using extends_refl, extends_markInitOnly.
  - apply extends_trans.
  - intros. by apply extends_same.
  - intros. by apply extends_same.
  - intros. apply extends_record_call.
Qed.

Lemma Promise_resolve_spec v r :
  ∃ src r1, Promise_resolve v r = (Ok src, r1) ∧
            (r1 = r ∨ r1 = set_promises (promises r ++ [External]) r).
Proof.
  unfold Promise_resolve, new_promise, bind, get, modify, ret.
  destruct v; simpl; eauto.
Qed.

Lemma memoize_or_track_extends c o maybe r :
  extends r (snd (memoize_or_track c o maybe r)).
Proof.
  unfold memoize_or_track, bind, get, modify, ret. simpl.
  destruct (isThenable (heap r) maybe); simpl.
  - destruct (Promise_resolve_spec maybe r) as (src & r1 & -> & Hr1). simpl.
    unfold new_promise, bind, get, modify, ret. simpl.
    assert (extends r r1) as H1.
    { destruct Hr1 as [-> | ->]; [apply extends_refl | apply extends_new_promise]. }
    eapply extends_trans; [exact H1|].
    eapply extends_trans; [apply extends_new_promise|].
    by apply (extends_update_class c (write_inFlight _)).
  - by apply (extends_update_class c (write_instance o)).
Qed.

Lemma apply_initializer_extends init_cb new_cb c body o args r :
  (∀ ctor args r, extends r (snd (init_cb ctor args r))) →
  (∀ f args r, extends r (snd (new_cb f args r))) →
  extends r (snd (apply_initializer init_cb new_cb c body o args r)).
Proof.
  intros Hi Hn. unfold apply_initializer, bind, get, modify, ret. simpl.
  match goal with |- context [exec _ _ _ ?x] => set (r2 := x) end.
  assert (extends r r2) as H2 by apply extends_record_call.
  pose proof (exec_extends init_cb new_cb (body args o) r2 Hi Hn) as H3.
  destruct (exec init_cb new_cb (body args o) r2) as [[how|e] r3]; simpl in *;
    [| eapply extends_trans; [exact H2 | exact H3]].
  destruct how as [v | k]; simpl; [eapply extends_trans; [exact H2 | exact H3]|].
  unfold new_promise, bind, get, modify, ret. simpl.
  eapply extends_trans; [exact H2|]. eapply extends_trans; [exact H3|].
  apply extends_new_promise.
Qed.

Lemma init_body_extends init_cb new_cb ctor args r :
  (∀ ctor args r, extends r (snd (init_cb ctor args r))) →
  (∀ f args r, extends r (snd (new_cb f args r))) →
  extends r (snd (init_body init_cb new_cb ctor args r)).
Proof.
  intros Hi Hn. destruct ctor as [|f]; [apply extends_refl|].
  unfold init_body, bind, get, throw, ret. simpl.
  destruct (classes r !! class_of f) as [cs|]; simpl; [| apply extends_refl].
  destruct (isInitOnly cs); simpl; [| apply extends_refl].
  destruct (__instance cs); simpl; [apply extends_refl|].
  destruct (__inFlight cs); simpl; [apply extends_refl|].
  unfold initialize, bind, get, throw. 
  pose proof (Reflect_construct_extends init_cb new_cb f [] r Hi Hn) as H1.
  destruct (Reflect_construct init_cb new_cb f [] r) as [[o|e] r1]; simpl in *; [| done].
  destruct o as [ | | | | | |a| | ]; try done.
  destruct (get_initializer r1 (VObject a)) as [[initFn|v]|]; try done.
  pose proof (apply_initializer_extends init_cb new_cb (class_of f) initFn a args r1 Hi Hn)
    as H2.
  destruct (apply_initializer init_cb new_cb (class_of f) initFn a args r1) as [[maybe|e] r2];
    simpl in *; [| eapply extends_trans; [exact H1 | exact H2]].
  eapply extends_trans; [exact H1|]. eapply extends_trans; [exact H2|].
  apply memoize_or_track_extends.
Qed.

Lemma init_new_extends stack :
  (∀ ctor args r, extends r (snd (init stack ctor args r))) ∧
  (∀ f args r, extends r (snd (new stack f args r))).
Proof.
  induction stack as [|n [IHi IHn]]; simpl.
  - split; intros; apply extends_refl.
  - split; intros; [by apply init_body_extends | by apply Reflect_construct_extends].
Qed.

Lemma run_code_extends {A} stack (p : prog A) r : extends r (snd (run_code stack p r)).
Proof.
  destruct (init_new_extends stack) as [Hi Hn]. by apply exec_extends.
Qed.

(** ** Side conditions *)

Lemma unsettled_during_spec d tr : unsettled_during d tr = true → React d ∉ tr.
Proof.
  unfold unsettled_during. intros H Hin. apply negb_true_iff in H.
  apply list_elem_of_In in Hin.
  assert (existsb (is_react d) tr = true) as Hex; [| congruence].
  apply existsb_exists. exists (React d). split; [done|]. simpl. apply Nat.eqb_refl.
Qed.

Lemma uninitialized_spec c r :
  uninitialized c r = true →
  ∃ cs, classes r !! c = Some cs ∧ __instance cs = None ∧ __inFlight cs = None.
Proof.
  unfold uninitialized. intros H. destruct (classes r !! c) as [cs|]; [|done].
  exists cs. by destruct (__instance cs), (__inFlight cs).
Qed.

Lemma run_cons stack e tr r : run stack (e :: tr) r = run stack tr (step stack e r).
Proof. reflexivity. Qed.

(** ** The early returns of [init] *)

Lemma init_returns_instance n f args r cs o :
  classes r !! class_of f = Some cs → isInitOnly cs = true →
  __instance cs = Some o →
  init (S n) (Function f) args r = (Ok (VObject o), r).
Proof.
  intros Hc Hio Hinst. simpl. unfold init_body, bind, get, ret. simpl.
  by rewrite Hc, Hio, Hinst.
Qed.

Lemma init_returns_inFlight n f args r cs p :
  classes r !! class_of f = Some cs → isInitOnly cs = true →
  __instance cs = None → __inFlight cs = Some p →
  init (S n) (Function f) args r = (Ok (VPromise p), r).
Proof.
  intros Hc Hio Hinst Hfl. simpl. unfold init_body, bind, get, ret. simpl.
  by rewrite Hc, Hio, Hinst, Hfl.
Qed.

Lemma init_initializes n f args r cs :
  classes r !! class_of f = Some cs → isInitOnly cs = true →
  __instance cs = None → __inFlight cs = None →
  init (S n) (Function f) args r = initialize (init n) (new n) f cs args r.
Proof.
  intros Hc Hio Hinst Hfl. simpl. unfold init_body, bind, get, ret. simpl.
  by rewrite Hc, Hio, Hinst, Hfl.
Qed.

(** ** The first call *)



(** ** [init] on a guarded class *)

(** C10, as stated, fails.  Once [App] has been initialized through the class
    itself, [init] on its guarded wrapper does not throw: it reads
    [__instance] through the proxy and returns the memoized instance. *)
Lemma init_on_guard_returns_memoized_instance :
  let r := run 1 [DefineClass Examples.App; Allocate {["port" := VNum 3000]};
                  CallInit (Function (Class 0)) [VObject 0]] empty_realm in
  init_only 0 r = true ∧
  init 1 (Function (guardNewForInitOnly (Class 0))) [VObject 0] r = (Ok (VObject 1), r).
Proof. split; reflexivity. Qed.

(** C10, amended.  For an init-only class that has neither a memoized
    instance nor an in-flight handle, [init] on the wrapper made by
    [guardNewForInitOnly] throws the TypeError of the wrapper's construct
    trap and changes nothing; so no sequence of [init] calls on the wrapper
    ever initializes the class. *)
Theorem init_on_guard_cannot_start (n : nat) (f : callable) (cs : class_state)
    (r : realm) :
  classes r !! class_of f = Some cs →
  isInitOnly cs = true →
  uninitialized (class_of f) r = true →
  (∀ args, init (S n) (Function (guardNewForInitOnly f)) args r
             = (Throw (TypeError (ClassIsInitOnly (name (decl cs)))), r)) ∧
  ∀ argss, run (S n) (map (CallInit (Function (guardNewForInitOnly f))) argss) r = r.
Proof.
  intros Hc Hio Hun.
  apply uninitialized_spec in Hun as (cs' & Hc' & Hinst & Hfl).
  assert (cs' = cs) as -> by congruence.
  assert (∀ args, init (S n) (Function (guardNewForInitOnly f)) args r
             = (Throw (TypeError (ClassIsInitOnly (name (decl cs)))), r)) as Hthrow.
  { intros args. rewrite (init_initializes n _ args r cs) by done.
    unfold initialize, guardNewForInitOnly, bind, get, throw. simpl.
    unfold handler_construct, bind, get, throw. simpl. by rewrite Hc, Hio. }
  split; [done|].
  induction argss as [|args argss IH]; [done|].
  rewrite map_cons, run_cons. unfold step. by rewrite Hthrow.
Qed.

(** The repository's own example: [init(AppGuarded, { port: 3000 })]. *)
Lemma init_on_guard_cannot_start_witness :
  let r := run 1 [DefineClass Examples.App; Allocate {["port" := VNum 3000]};
                  Allocate {["port" := VNum 4000]}] empty_realm in
  (∀ args, init 1 (Function (guardNewForInitOnly (Class 0))) args r
             = (Throw (TypeError (ClassIsInitOnly "App")), r)) ∧
  ∀ argss, run 1 (map (CallInit (Function (guardNewForInitOnly (Class 0)))) argss) r = r.
Proof.
  intros r.
  apply (init_on_guard_cannot_start 0 (Class 0)
           (ClassState Examples.App false None None false) r); reflexivity.
Defined.

(** ** Allocation *)




(** ** Where the polyfill falls short of its documentation *)

(** C1 on the code.  After the asynchronous initializer has rejected, the
    derived promise is rejected with the same reason and no instance is
    memoized, but [__inFlight] still holds the rejected promise: the next
    [init(Flaky, 'good')] returns that same promise and does not run the
    initializer again. *)
Theorem rejected_handle_stays_in_flight (n : nat) :
  let r := FailureExample.after_failure (S n) in
  promises r !! 1 = Some (Settled (Reject (VStr "boom"))) ∧
  instance_of 0 r = None ∧
  inFlight_of 0 r = Some 1 ∧
  init (S n) (Function (Class 0)) [VStr "good"] r = (Ok (VPromise 1), r) ∧
  initializer_runs 0 r = 1.
Proof. repeat split; reflexivity. Qed.

(** C2 on the code.  [Settings] has the strict policy; after
    [init(Settings, 'prod')] the call [init(Settings, 'dev')] does not throw:
    it returns the first instance. *)
Theorem strict_policy_second_init_returns_instance (n : nat) :
  initPolicy StrictExample.Settings = VStr "strict" ∧
  instance_of 0 (StrictExample.after_first (S n)) = Some 0 ∧
  init (S n) (Function (Class 0)) [VStr "dev"] (StrictExample.after_first (S n))
    = (Ok (VObject 0), StrictExample.after_first (S n)).
Proof. repeat split; reflexivity. Qed.

(** C8 on the code.  [App] is init-only by its own [initializer] and was
    never passed to [markInitOnly]: it has no [instance] accessor.  Reading
    [App.instance] before any [init] gives [undefined] instead of throwing,
    and after a successful [init] it still gives [undefined], not the
    memoized instance. *)
Theorem instance_accessor_missing_without_marking (n : nat) :
  let r0 := run (S n) [DefineClass Examples.App; Allocate {["port" := VNum 3000]}]
              empty_realm in
  let r1 := run (S n) [CallInit (Function (Class 0)) [VObject 0]] r0 in
  init_only 0 r0 = true ∧
  get_instance (Class 0) r0 = (Ok VUndefined, r0) ∧
  instance_of 0 r1 = Some 1 ∧
  get_instance (Class 0) r1 = (Ok VUndefined, r1).
Proof. repeat split; reflexivity. Qed.

(** For a class that was passed to [markInitOnly] the accessor does what C8
    says: the memoized instance, or a TypeError when there is none. *)
Lemma instance_accessor_of_marked_class (f : callable) (cs : class_state) (r : realm) :
  classes r !! class_of f = Some cs → instance_accessor cs = true →
  get_instance f r =
    match __instance cs with
    | Some o => (Ok (VObject o), r)
    | None => (Throw (TypeError (ClassNotInitialized (name (decl cs)))), r)
    end.
Proof.
  intros Hc Hacc. unfold get_instance, bind, get, ret, throw. simpl.
  rewrite Hc, Hacc. by destruct (__instance cs).
Qed.

(** ** Registration *)

(** C6, as stated, fails.  [markInitOnly(Plain)], on a class without an
    initializer, returns the class, now init-only, after a console warning;
    [markInitOnly(Both)], on a class that declares a constructor, returns the
    class and prints nothing.  Neither call throws. *)
Lemma markInitOnly_accepts_missing_initializer_and_constructor :
  (let '(res, r') := markInitOnly (Function (Class 0)) (RegistrationExample.start 1) in
   res = Ok (Function (Class 0)) ∧ init_only 0 r' = true ∧
   console r' = [warning_no_initializer "Plain"]) ∧
  (let '(res, r') := markInitOnly (Function (Class 1)) (RegistrationExample.start 1) in
   res = Ok (Function (Class 1)) ∧ init_only 1 r' = true ∧ console r' = []).
Proof. repeat split; reflexivity. Qed.

Lemma markInitOnly_fresh (f : callable) (cs : class_state) (r : realm) :
  classes r !! class_of f = Some cs → instance_accessor cs = false →
  ∃ r1, markInitOnly (Function f) r = (Ok (Function f), r1) ∧
        classes r1 = alter define_instance_accessor (class_of f)
                       (alter mark_isInitOnly (class_of f) (classes r)) ∧
        console r1 = console r ++
          (if hasOwn_initializer cs then []
           else [warning_no_initializer (name (decl cs))]) ∧
        heap r1 = heap r ∧ promises r1 = promises r ∧ calls r1 = calls r.
Proof.
  intros Hc Hacc. unfold markInitOnly, bind, get, modify, ret, throw. simpl.
  rewrite list_lookup_alter_eq, Hc. simpl.
  change (hasOwn_initializer (mark_isInitOnly cs)) with (hasOwn_initializer cs).
  destruct (hasOwn_initializer cs); simpl; rewrite Hacc;
    eexists; (split; [done|]); simpl; rewrite ?app_nil_r; done.
Qed.

Lemma markInitOnly_marked (g : callable) (cs : class_state) (r : realm) :
  classes r !! class_of g = Some cs → instance_accessor cs = true →
  ∃ r2, markInitOnly (Function g) r = (Throw (TypeError CannotRedefineInstance), r2) ∧
        classes r2 = alter mark_isInitOnly (class_of g) (classes r) ∧
        heap r2 = heap r ∧ promises r2 = promises r ∧ calls r2 = calls r.
Proof.
  intros Hc Hacc. unfold markInitOnly, bind, get, modify, ret, throw. simpl.
  rewrite list_lookup_alter_eq, Hc. simpl.
  destruct (negb (hasOwn_initializer (mark_isInitOnly cs))); simpl; rewrite Hacc;
    eexists; split; done.
Qed.

(** C6, amended.  [markInitOnly] fails, with a TypeError, when its target is
    not a function.  On a class, or a guard wrapper of one, it fails (with the
    TypeError of [Object.defineProperty]) exactly when the class already
    carries the [instance] accessor, that is, when it has been passed to
    [markInitOnly] before.  Otherwise it succeeds whatever the class
    declares: it returns its argument, sets [__isInitOnly], installs the
    accessor, and prints one warning exactly when the class has no own
    [initializer]; a declared constructor plays no part. *)
Theorem markInitOnly_outcome (f : callable) (cs : class_state) (r : realm) :
  classes r !! class_of f = Some cs →
  markInitOnly NotFunction r = (Throw (TypeError MarkTargetNotClass), r) ∧
  (instance_accessor cs = true →
   fst (markInitOnly (Function f) r) = Throw (TypeError CannotRedefineInstance)) ∧
  (instance_accessor cs = false →
   ∃ r', markInitOnly (Function f) r = (Ok (Function f), r') ∧
         classes r' !! class_of f
           = Some (ClassState (decl cs) true (__instance cs) (__inFlight cs) true) ∧
         console r' = console r ++
           (if hasOwn_initializer cs then []
            else [warning_no_initializer (name (decl cs))])).
Proof.
  intros Hc. split; [done|]. split; intros Hacc.
  - by destruct (markInitOnly_marked f cs r Hc Hacc) as (r2 & -> & _).
  - destruct (markInitOnly_fresh f cs r Hc Hacc) as (r1 & -> & Hcl & Hco & _).
    exists r1. split; [done|]. split; [| done].
    by rewrite Hcl, !list_lookup_alter_eq, Hc.
Qed.

Lemma markInitOnly_outcome_witness :
  let r := RegistrationExample.start 1 in
  markInitOnly NotFunction r = (Throw (TypeError MarkTargetNotClass), r) ∧
  (false = true →
   fst (markInitOnly (Function (Class 0)) r) = Throw (TypeError CannotRedefineInstance)) ∧
  (false = false →
   ∃ r', markInitOnly (Function (Class 0)) r = (Ok (Function (Class 0)), r') ∧
         classes r' !! 0 = Some (ClassState RegistrationExample.Plain true None None true) ∧
         console r' = console r ++ [warning_no_initializer "Plain"]).
Proof.
  intros r.
  apply (markInitOnly_outcome (Class 0)
           (ClassState RegistrationExample.Plain false None None false) r).
  reflexivity.
Defined.

(** ** Misuse *)

(** C7, as stated, fails.  [App] is init-only (by its own [initializer], and
    marked), and [new App(...)] on the class itself constructs an object:
    nothing intercepts it. *)
Lemma new_on_unguarded_init_only_class_succeeds :
  init_only 0 (misuse_start 1) = true ∧
  (classes (misuse_start 1) !! 0 ≫= λ cs, Some (__isInitOnly cs)) = Some true ∧
  fst (new 1 (Class 0) [VNum 1234] (misuse_start 1)) = Ok (VObject 0).
Proof. repeat split; reflexivity. Qed.

(** C7, amended.  Each direction on its own.  Construction through the
    wrapper made by [guardNewForInitOnly] of an init-only class throws the
    TypeError "is init-only, use init instead of new"; and [init] on a class
    that is not init-only throws the TypeError "is not init-only, use new".
    Either error is the outcome of the offending call itself, and the call
    changes nothing. *)
Theorem misuse_throws_at_the_call :
  (∀ n (f : callable) (cf : class_state) (args : list value) (r : realm),
     classes r !! class_of f = Some cf → isInitOnly cf = true →
     new (S n) (guardNewForInitOnly f) args r
       = (Throw (TypeError (ClassIsInitOnly (name (decl cf)))), r)) ∧
  (∀ n (g : callable) (cg : class_state) (args : list value) (r : realm),
     classes r !! class_of g = Some cg → isInitOnly cg = false →
     init (S n) (Function g) args r
       = (Throw (TypeError (ClassNotInitOnly (name (decl cg)))), r)).
Proof.
  split.
  - intros n f cf args r Hf Hfio. simpl. unfold guardNewForInitOnly. simpl.
    unfold handler_construct, bind, get, throw. simpl. by rewrite Hf, Hfio.
  - intros n g cg args r Hg Hgio. simpl. unfold init_body, bind, get, throw. simpl.
    by rewrite Hg, Hgio.
Qed.

(** The first direction where only an init-only class exists, the second
    where only an ordinary class does. *)
Lemma misuse_throws_at_the_call_witness :
  (let r := run 1 [DefineClass Examples.App] empty_realm in
   new 1 (guardNewForInitOnly (Class 0)) [VNum 1234] r
     = (Throw (TypeError (ClassIsInitOnly "App")), r)) ∧
  (let r := run 1 [DefineClass RegistrationExample.Plain] empty_realm in
   init 1 (Function (Class 0)) [VNum 1234] r
     = (Throw (TypeError (ClassNotInitOnly "Plain")), r)).
Proof.
  split.
  - apply (proj1 misuse_throws_at_the_call 0 (Class 0)
             (ClassState Examples.App false None None false)); reflexivity.
  - apply (proj2 misuse_throws_at_the_call 0 (Class 0)
             (ClassState RegistrationExample.Plain false None None false)); reflexivity.
Defined.

(** ** Further properties of [markInitOnly] and the guard *)

(** X9. [markInitOnly] is not idempotent.  On a class that has not been
    marked, a first call succeeds; a second call on the same class, through
    the class or a wrapper, throws the TypeError of [Object.defineProperty]
    (the accessor [instance] is not configurable), and the class is still
    init-only afterwards. *)
Theorem markInitOnly_twice_throws (f g : callable) (cs : class_state) (r : realm) :
  classes r !! class_of f = Some cs →
  instance_accessor cs = false →
  class_of g = class_of f →
  let r1 := snd (markInitOnly (Function f) r) in
  let '(res2, r2) := markInitOnly (Function g) r1 in
  fst (markInitOnly (Function f) r) = Ok (Function f) ∧
  res2 = Throw (TypeError CannotRedefineInstance) ∧
  init_only (class_of f) r2 = true.
Proof.
  intros Hc Hacc Hg. cbv zeta.
  destruct (markInitOnly_fresh f cs r Hc Hacc) as (r1 & Hm1 & Hcl1 & _).
  rewrite Hm1. cbn [fst snd].
  assert (classes r1 !! class_of g
          = Some (define_instance_accessor (mark_isInitOnly cs))) as Hc1.
  { by rewrite Hg, Hcl1, !list_lookup_alter_eq, Hc. }
  destruct (markInitOnly_marked g _ r1 Hc1 eq_refl) as (r2 & Hm2 & Hcl2 & _).
  rewrite Hm2. split; [done|]. split; [done|].
  unfold init_only. rewrite Hcl2, <- Hg, list_lookup_alter_eq, Hc1. done.
Qed.

Lemma markInitOnly_twice_throws_witness :
  let r := RegistrationExample.start 1 in
  let r1 := snd (markInitOnly (Function (Class 0)) r) in
  let '(res2, r2) := markInitOnly (Function (guardNewForInitOnly (Class 0))) r1 in
  fst (markInitOnly (Function (Class 0)) r) = Ok (Function (Class 0)) ∧
  res2 = Throw (TypeError CannotRedefineInstance) ∧
  init_only 0 r2 = true.
Proof.
  apply (markInitOnly_twice_throws (Class 0) (guardNewForInitOnly (Class 0))
           (ClassState RegistrationExample.Plain false None None false)
           (RegistrationExample.start 1)); reflexivity.
Defined.



Lemma class_of_guard_n n f : class_of (guard_n n f) = class_of f.
Proof. induction n as [|n IH]; [done|]. simpl. exact IH. Qed.

(** X11. Guard wrappers stack.  For a class that is not init-only, [new]
    through any number of nested wrappers does exactly what [new] on the
    class does; for an init-only class, [new] through one or more wrappers
    throws the wrapper's TypeError and changes nothing. *)
Theorem nested_guards (stack n : nat) (f : callable) (cs : class_state)
    (args : list value) (r : realm) :
  classes r !! class_of f = Some cs →
  new (S stack) (guard_n n f) args r =
    if isInitOnly cs then
      match n with
      | 0 => new (S stack) f args r
      | S _ => (Throw (TypeError (ClassIsInitOnly (name (decl cs)))), r)
      end
    else new (S stack) f args r.
Proof.
  intros Hc. induction n as [|n IH].
  - simpl. by destruct (isInitOnly cs).
  - simpl in *. unfold handler_construct, bind, get, throw. simpl.
    fold (guard_n n f). rewrite class_of_guard_n, Hc.
    destruct (isInitOnly cs); [done|]. exact IH.
Qed.

Lemma nested_guards_witness :
  new 1 (guard_n 3 (Class 1)) [VNum 1] (misuse_start 1)
    = new 1 (Class 1) [VNum 1] (misuse_start 1) ∧
  new 1 (guard_n 3 (Class 0)) [VNum 1] (misuse_start 1)
    = (Throw (TypeError (ClassIsInitOnly "App")), misuse_start 1).
Proof.
  split.
  - apply (nested_guards 0 3 (Class 1)
             (ClassState RegistrationExample.Plain false None None false)
             [VNum 1] (misuse_start 1)). reflexivity.
  - apply (nested_guards 0 3 (Class 0)
             (ClassState Examples.App true None None true) [VNum 1] (misuse_start 1)).
    reflexivity.
Defined.

(** X12. The guard decides at construction time.  A wrapper made while the
    class was an ordinary one starts to refuse [new] as soon as the class is
    passed to [markInitOnly] (itself or through any wrapper): the trap reads
    [__isInitOnly] on every construction. *)
Theorem guard_sees_later_marking (n : nat) (f g : callable) (cs : class_state)
    (args : list value) (r : realm) :
  classes r !! class_of f = Some cs →
  class_of g = class_of f →
  let r1 := snd (markInitOnly (Function g) r) in
  new (S n) (guardNewForInitOnly f) args r1
    = (Throw (TypeError (ClassIsInitOnly (name (decl cs)))), r1).
Proof.
  intros Hc Hg r1.
  assert (∃ cs1, classes r1 !! class_of f = Some cs1 ∧ decl cs1 = decl cs ∧
                 __isInitOnly cs1 = true) as (cs1 & Hc1 & Hdecl & Hflag).
  { subst r1. rewrite <- Hg in Hc. destruct (instance_accessor cs) eqn:Hacc.
    - destruct (markInitOnly_marked g cs r Hc Hacc) as (r2 & -> & Hcl & _). simpl.
      exists (mark_isInitOnly cs). by rewrite Hcl, <- Hg, list_lookup_alter_eq, Hc.
    - destruct (markInitOnly_fresh g cs r Hc Hacc) as (r2 & -> & Hcl & _). simpl.
      exists (define_instance_accessor (mark_isInitOnly cs)).
      by rewrite Hcl, <- Hg, !list_lookup_alter_eq, Hc. }
  simpl. unfold guardNewForInitOnly. simpl.
  unfold handler_construct, bind, get, throw. simpl. rewrite Hc1.
  unfold isInitOnly. rewrite Hflag. simpl. by rewrite Hdecl.
Qed.

Lemma guard_sees_later_marking_witness :
  let r := RegistrationExample.start 1 in
  fst (new 1 (guardNewForInitOnly (Class 0)) [] r) = Ok (VObject 0) ∧
  let r1 := snd (markInitOnly (Function (Class 0)) r) in
  new 1 (guardNewForInitOnly (Class 0)) [] r1
    = (Throw (TypeError (ClassIsInitOnly "Plain")), r1).
Proof.
  split; [reflexivity|].
  apply (guard_sees_later_marking 0 (Class 0) (Class 0)
           (ClassState RegistrationExample.Plain false None None false)
           [] (RegistrationExample.start 1)); reflexivity.
Defined.

(** X16. [markInitOnly] only marks.  Whatever its argument and whether it
    succeeds or throws, it leaves the memoized instance and the in-flight
    handle of every class, the heap and the promises as they were: marking a
    class that is already initialized, or being initialized, resets
    nothing. *)
Theorem markInitOnly_resets_nothing (C : operand) (r : realm) (c : cid) :
  let r' := snd (markInitOnly C r) in
  instance_of c r' = instance_of c r ∧ inFlight_of c r' = inFlight_of c r ∧
  heap r' = heap r ∧ promises r' = promises r.
Proof.
  simpl. destruct C as [|f]; [done|].
  assert (∀ g (l : list class_state), (∀ cs, __instance (g cs) = __instance cs ∧ __inFlight (g cs) = __inFlight cs) →
            (alter g (class_of f) l !! c ≫= __instance) = (l !! c ≫= __instance) ∧
            (alter g (class_of f) l !! c ≫= __inFlight) = (l !! c ≫= __inFlight)) as Halt.
  { intros g l Hg. rewrite list_lookup_alter. case_decide as Heq; [subst | done].
    destruct (l !! class_of f) as [cs|]; simpl; [| done]. by destruct (Hg cs) as [-> ->]. }
  destruct (Halt mark_isInitOnly (classes r) (λ cs, conj eq_refl eq_refl)) as [Hi1 Hf1].
  destruct (Halt define_instance_accessor (alter mark_isInitOnly (class_of f) (classes r))
              (λ cs, conj eq_refl eq_refl)) as [Hi2 Hf2].
  unfold instance_of, inFlight_of, markInitOnly, bind, get, modify, ret, throw. simpl.
  destruct (alter mark_isInitOnly (class_of f) (classes r) !! class_of f) as [cs|];
    simpl; [| done].
  destruct (negb (hasOwn_initializer cs)), (instance_accessor cs); simpl;
    repeat split; congruence.
Qed.

(** ** The example script [examples/async.js] *)

(** X14. [src/examples/async.js], for any two urls.  The two calls of [init]
    return the identical promise ("same promise? true"), the initializer has
    run once, and when the awaited jobs have run the promise is fulfilled
    with an object whose [ready] is [true] and whose [url] is the url of the
    first call; the second url is nowhere. *)
Theorem async_js_prints (n : nat) (url1 url2 : string) :
  let r0 := run (S n) [DefineClass Examples.DB] empty_realm in
  let '(p1, r1) := init (S n) (Function (Class 0)) [VStr url1] r0 in
  let '(p2, r2) := init (S n) (Function (Class 0)) [VStr url2] r1 in
  let r3 := run (S n) async_js_await r2 in
  p1 = Ok (VPromise 1) ∧ p2 = p1 ∧
  r2 = run (S n) (async_js_calls url1 url2) empty_realm ∧
  initializer_runs 0 r3 = 1 ∧
  promises r3 !! 1 = Some (Settled (Fulfill (VObject 0))) ∧
  fields_of 0 r3 = Some (<["ready" := VBool true]> (<["url" := VStr url1]> ∅)).
Proof. repeat split; reflexivity. Qed.

(** ** The policy is never consulted *)

Section Policy.

Variable pol : string → value.

Lemma commutes_bind {A B} (m : M A) (k : A → M B) :
  commutes pol m → (∀ a, commutes pol (k a)) → commutes pol (bind m k).
Proof.
  intros Hm Hk r. unfold bind. rewrite Hm. destruct (m r) as [[a|e] r1]; simpl; [|done].
  apply Hk.
Qed.

Lemma with_policies_update_class c g r :
  (∀ cs, set_policy pol (g cs) = g (set_policy pol cs)) →
  update_class c g (with_policies pol r) = with_policies pol (update_class c g r).
Proof.
  intros Hg. unfold update_class, with_policies, set_classes. simpl. f_equal.
  symmetry. apply list_fmap_alter, Forall_true. exact Hg.
Qed.

Lemma markInitOnly_policy C : commutes pol (markInitOnly C).
Proof.
  intros r. destruct C as [|f]; [reflexivity|].
  unfold markInitOnly, bind, get, modify, ret, throw.
  rewrite (with_policies_update_class _ mark_isInitOnly) by done.
  set (r1 := update_class (class_of f) mark_isInitOnly r).
  change (classes (with_policies pol r1)) with (set_policy pol <$> classes r1).
  rewrite list_lookup_fmap.
  destruct (classes r1 !! class_of f) as [cs|]; simpl; [|reflexivity].
  change (hasOwn_initializer (set_policy pol cs)) with (hasOwn_initializer cs).
  destruct (negb (hasOwn_initializer cs)); simpl;
    destruct (instance_accessor cs); simpl; try reflexivity; f_equal.
  - change (warn ?s (with_policies pol r1)) with (with_policies pol (warn s r1)).
    by rewrite (with_policies_update_class _ define_instance_accessor).
  - by rewrite (with_policies_update_class _ define_instance_accessor).
Qed.

Lemma get_instance_policy f : commutes pol (get_instance f).
Proof.
  intros r. unfold get_instance, bind, get, ret, throw. simpl.
  rewrite list_lookup_fmap. destruct (classes r !! class_of f) as [cs|]; simpl; [|done].
  destruct (instance_accessor cs); simpl; [|done]. by destruct (__instance cs).
Qed.

Lemma get_initializer_policy r o :
  get_initializer (with_policies pol r) o = get_initializer r o.
Proof.
  unfold get_initializer. destruct o; try done. simpl.
  destruct (heap r !! r0) as [ob|]; [|done]. destruct (proto ob) as [c|]; [|done].
  rewrite list_lookup_fmap. by destruct (classes r !! c).
Qed.

Lemma memoize_or_track_policy c o maybe : commutes pol (memoize_or_track c o maybe).
Proof.
  intros r. unfold memoize_or_track, bind, get, modify, ret. simpl.
  destruct (isThenable (heap r) maybe); simpl.
  - unfold Promise_resolve, new_promise, bind, get, modify, ret.
    destruct maybe; simpl; f_equal; by rewrite <- with_policies_update_class.
  - f_equal. by rewrite <- with_policies_update_class.
Qed.

Variable init_cb : operand → list value → M value.
Variable new_cb : callable → list value → M value.
Hypothesis init_cb_policy : ∀ ctor args, commutes pol (init_cb ctor args).
Hypothesis new_cb_policy : ∀ f args, commutes pol (new_cb f args).

Lemma exec_policy {A} (p : prog A) : commutes pol (exec init_cb new_cb p).
Proof.
  induction p as [a | e | k IH | o key v k IH | fs k IH | s k IH
                  | ctor args k IH | f args k IH | C k IH | f k IH];
    intros r; simpl; try done.
  - apply IH.
  - apply (IH (set_heap _ r)).
  - apply (IH _ (set_heap _ r)).
  - apply (IH (warn s r)).
  - rewrite init_cb_policy. destruct (init_cb ctor args r) as [res r1]. apply IH.
  - rewrite new_cb_policy. destruct (new_cb f args r) as [res r1]. apply IH.
  - rewrite markInitOnly_policy. destruct (markInitOnly C r) as [res r1]. apply IH.
  - rewrite get_instance_policy. destruct (get_instance f r) as [res r1]. apply IH.
Qed.

Lemma class_construct_policy c args : commutes pol (class_construct init_cb new_cb c args).
Proof.
  intros r. unfold class_construct, bind, get, modify, ret, throw. simpl.
  rewrite list_lookup_fmap. destruct (classes r !! c) as [cs|]; simpl; [|done].
  destruct (user_constructor (decl cs)) as [body|]; simpl; [|done].
  match goal with |- context [exec _ _ _ (record_call ?e ?x)] =>
    change (record_call e x) with
      (with_policies pol (record_call e
         (set_heap (heap r ++ [Obj (Some c) (field_defaults (decl cs))]) r))) end.
  rewrite exec_policy.
  by destruct (exec init_cb new_cb _ _) as [[v|e] r1].
Qed.

Lemma Reflect_construct_policy f args : commutes pol (Reflect_construct init_cb new_cb f args).
Proof.
  induction f as [c | t IH]; simpl; [apply class_construct_policy|].
  intros r. unfold handler_construct, bind, get, throw. simpl.
  rewrite list_lookup_fmap. destruct (classes r !! class_of t) as [cs|]; simpl; [|done].
  change (isInitOnly (set_policy pol cs)) with (isInitOnly cs).
  destruct (isInitOnly cs); [done|]. apply IH.
Qed.

Lemma apply_initializer_policy c body o args :
  commutes pol (apply_initializer init_cb new_cb c body o args).
Proof.
  intros r. unfold apply_initializer, bind, get, modify, ret. simpl.
  match goal with |- context [exec _ _ _ (record_call ?e ?x)] =>
    change (record_call e x) with (with_policies pol (record_call e r)) end.
  rewrite exec_policy.
  destruct (exec init_cb new_cb _ _) as [[[v|k]|e] r1]; simpl; try done.
Qed.

Lemma init_body_policy ctor args : commutes pol (init_body init_cb new_cb ctor args).
Proof.
  intros r. destruct ctor as [|f]; [reflexivity|].
  unfold init_body, bind, get, throw, ret. simpl.
  rewrite list_lookup_fmap. destruct (classes r !! class_of f) as [cs|]; simpl; [|done].
  change (isInitOnly (set_policy pol cs)) with (isInitOnly cs).
  destruct (isInitOnly cs); simpl; [|done].
  destruct (__instance cs); simpl; [done|].
  destruct (__inFlight cs); simpl; [done|].
  unfold initialize, bind, get, throw. rewrite Reflect_construct_policy.
  destruct (Reflect_construct init_cb new_cb f [] r) as [[o|e] r1]; simpl; [|done].
  destruct o as [ | | | | | |a| | ]; try done.
  rewrite get_initializer_policy.
  destruct (get_initializer r1 (VObject a)) as [[initFn|v]|]; try done.
  rewrite apply_initializer_policy.
  destruct (apply_initializer init_cb new_cb (class_of f) initFn a args r1)
    as [[maybe|e] r2]; simpl; [|done].
  apply memoize_or_track_policy.
Qed.

End Policy.

Lemma init_new_policy pol stack :
  (∀ ctor args, commutes pol (init stack ctor args)) ∧
  (∀ f args, commutes pol (new stack f args)).
Proof.
  induction stack as [|n [IHi IHn]]; simpl.
  - split; intros; intros r; done.
  - split; intros; [by apply init_body_policy | by apply Reflect_construct_policy].
Qed.

(** X15. [init] never consults the policy.  Give every class any value
    whatever under [SymbolInitPolicy] -- ['strict'], ['reinit'], anything:
    every call of [init] has the same outcome (the same object, promise or
    exception) and leaves the same realm, up to that replacement.  The
    [policy] local of [init] is dead. *)
Theorem init_ignores_policy (pol : string → value) (stack : nat) (ctor : operand)
    (args : list value) (r : realm) :
  init stack ctor args (with_policies pol r)
    = (fst (init stack ctor args r), with_policies pol (snd (init stack ctor args r))).
Proof. apply init_new_policy. Qed.

(** ** What does not concern a class *)

Lemma keeps_slots_refl cs : keeps_slots cs cs.
Proof. by repeat split. Qed.

Lemma keeps_slots_trans cs1 cs2 cs3 :
  keeps_slots cs1 cs2 → keeps_slots cs2 cs3 → keeps_slots cs1 cs3.
Proof. intros (?&?&?&?) (?&?&?&?). repeat split; [congruence.. | auto]. Qed.

Lemma foreign_refl c r : foreign c r r.
Proof.
  split; [| done]. intros cs Hc. exists cs. split; [done | apply keeps_slots_refl].
Qed.

Lemma foreign_trans c r1 r2 r3 : foreign c r1 r2 → foreign c r2 r3 → foreign c r1 r3.
Proof.
  intros (Hc1 & Hn1 & Hp1 & Hd1 & Hk1) (Hc2 & Hn2 & Hp2 & Hd2 & Hk2).
  split; [| split; [auto | split; [auto | split; [auto | congruence]]]].
  intros cs Hc. destruct (Hc1 cs Hc) as (cs2 & Hcs2 & Hk).
  destruct (Hc2 cs2 Hcs2) as (cs3 & Hcs3 & Hk'). exists cs3.
  split; [done | by eapply keeps_slots_trans].
Qed.

(** A change of the realm that leaves classes and promises alone, and logs
    no initializer call of [c]. *)
Lemma foreign_same c r r' :
  classes r' = classes r → promises r' = promises r →
  initializer_calls c (calls r') = initializer_calls c (calls r) → foreign c r r'.
Proof.
  intros Hcl Hp Hk. unfold foreign. rewrite Hcl, Hp.
  split; [| done]. intros cs Hc. exists cs. split; [done | apply keeps_slots_refl].
Qed.

Lemma foreign_alter c c' g r :
  (c' = c → ∀ cs, keeps_slots cs (g cs)) → foreign c r (update_class c' g r).
Proof.
  intros Hg. split; [| split; [| done]].
  - intros cs Hc. simpl. destruct (decide (c' = c)) as [->|Hne].
    + exists (g cs). split; [by rewrite list_lookup_alter_eq, Hc | by apply Hg].
    + exists cs. split; [by rewrite list_lookup_alter_ne | apply keeps_slots_refl].
  - intros Hc. simpl. rewrite list_lookup_alter. case_decide; [subst; by rewrite Hc | done].
Qed.

Lemma foreign_new_promise c cell r :
  (∀ src o, cell ≠ Derived src c o) →
  foreign c r (set_promises (promises r ++ [cell]) r).
Proof.
  intros Hcell. split; [| split; [done | split; [| split; [| done]]]].
  - intros cs Hc. exists cs. split; [done | apply keeps_slots_refl].
  - intros d x Hd. simpl. by apply lookup_app_l_Some.
  - intros d src o Hd. simpl in Hd. apply lookup_snoc_Some in Hd as [[_ Hd] | [_ Hd]]; [done|].
    by destruct (Hcell src o).
Qed.

Lemma initializer_calls_app c l1 l2 :
  initializer_calls c (l1 ++ l2) = initializer_calls c l1 ++ initializer_calls c l2.
Proof. apply filter_app. Qed.

Lemma initializer_calls_other c c' o this args :
  c' ≠ c → initializer_calls c [RanInitializer c' o this args] = [].
Proof.
  intros Hne. unfold initializer_calls. rewrite filter_cons_False; [done|].
  simpl. intros ?%Nat.eqb_eq. done.
Qed.

Lemma initializer_calls_self c o this args :
  initializer_calls c [RanInitializer c o this args] = [RanInitializer c o this args].
Proof.
  unfold initializer_calls. rewrite filter_cons_True; [done|].
  simpl. apply Nat.eqb_refl.
Qed.

Lemma foreign_record_call c e r :
  initializer_calls c [e] = [] → foreign c r (record_call e r).
Proof.
  intros He. apply foreign_same; [done | done |]. simpl.
  by rewrite initializer_calls_app, He, app_nil_r.
Qed.

Lemma foreign_markInitOnly c r C : foreign c r (snd (markInitOnly C r)).
Proof.
  destruct C as [|f]; [apply foreign_refl|].
  destruct (classes r !! class_of f) as [cs|] eqn:Hc.
  - destruct (instance_accessor cs) eqn:Hacc.
    + destruct (markInitOnly_marked f cs r Hc Hacc) as (r2 & -> & Hcl & _ & Hp & Hk).
      simpl. eapply foreign_trans; [apply (foreign_alter c (class_of f) mark_isInitOnly)|].
      * intros _ cs'. by repeat split.
      * apply foreign_same; [done | done | by rewrite Hk].
    + destruct (markInitOnly_fresh f cs r Hc Hacc) as (r1 & -> & Hcl & _ & _ & Hp & Hk).
      simpl. eapply foreign_trans; [apply (foreign_alter c (class_of f) mark_isInitOnly)|].
      * intros _ cs'. by repeat split.
      * eapply foreign_trans;
          [apply (foreign_alter c (class_of f) define_instance_accessor)|].
        -- intros _ cs'. by repeat split.
        -- apply foreign_same; [done | done | by rewrite Hk].
  - unfold markInitOnly, bind, get, modify, ret, throw. simpl.
    rewrite list_lookup_alter_eq, Hc. simpl.
    apply (foreign_alter c (class_of f) mark_isInitOnly). intros _ cs'. by repeat split.
Qed.

Lemma single_handle_foreign c r r' : foreign c r r' → single_handle c r → single_handle c r'.
Proof.
  intros (Hc & _ & _ & Hd & _) Hs d src o Hcell.
  destruct (Hs d src o (Hd _ _ _ Hcell)) as (cs & Hcs & Hfl & Hinst & Hio).
  destruct (Hc cs Hcs) as (cs' & Hcs' & _ & Hfl' & Hinst' & Hio').
  exists cs'. repeat split; [done | congruence | congruence | auto].
Qed.

Lemma tame_at_kept c r r' :
  (∀ cs', classes r' !! c = Some cs' → ∃ cs, classes r !! c = Some cs ∧ decl cs' = decl cs) →
  tame_at c r → tame_at c r'.
Proof. intros H Ht cs' Hc'. destruct (H cs' Hc') as (cs & Hc & ->). by eapply Ht. Qed.

Lemma csteps_one c r r' : cstep c r r' → csteps c r r'.
Proof. intros H. eapply csteps_step; [exact H | apply csteps_refl]. Qed.

Lemma csteps_trans c r1 r2 r3 : csteps c r1 r2 → csteps c r2 r3 → csteps c r1 r3.
Proof.
  induction 1 as [| r1 r2 r2' Hs _ IH]; [done|]. intros H. eapply csteps_step; eauto.
Qed.

Lemma csteps_foreign c r r' : foreign c r r' → csteps c r r'.
Proof. intros H. by apply csteps_one, cstep_foreign. Qed.

(** Along such steps the class keeps its declaration and the old promise
    cells stay. *)
Lemma cstep_kept c r r' :
  cstep c r r' →
  (∀ cs, classes r !! c = Some cs → ∃ cs', classes r' !! c = Some cs' ∧ decl cs' = decl cs) ∧
  (∀ d cell, promises r !! d = Some cell → promises r' !! d = Some cell).
Proof.
  intros [(Hc & _ & Hp & _) | _ _ Hc Hp]; (split; [| done]); [| done].
  intros cs Hcs. destruct (Hc cs Hcs) as (cs' & Hcs' & Hd & _). eauto.
Qed.

Lemma csteps_kept c r r' :
  csteps c r r' →
  (∀ cs, classes r !! c = Some cs → ∃ cs', classes r' !! c = Some cs' ∧ decl cs' = decl cs) ∧
  (∀ d cell, promises r !! d = Some cell → promises r' !! d = Some cell).
Proof.
  induction 1 as [| r1 r2 r3 Hs _ [IHc IHp]]; [by eauto|].
  destruct (cstep_kept _ _ _ Hs) as [Hc Hp]. split; [| auto].
  intros cs Hcs. destruct (Hc cs Hcs) as (cs2 & Hcs2 & Hd2).
  destruct (IHc cs2 Hcs2) as (cs3 & Hcs3 & Hd3). exists cs3. split; [done | congruence].
Qed.

Lemma single_handle_cstep c r r' : cstep c r r' → single_handle c r → single_handle c r'.
Proof. intros [Hf | _ Hs _ _] H; [by eapply single_handle_foreign | done]. Qed.

Lemma single_handle_csteps c r r' : csteps c r r' → single_handle c r → single_handle c r'.
Proof. induction 1; eauto using single_handle_cstep. Qed.

(** ** Code that does not re-enter *)

Lemma markInitOnly_heap C r : heap (snd (markInitOnly C r)) = heap r.
Proof.
  destruct C as [|f]; [done|].
  destruct (classes r !! class_of f) as [cs|] eqn:Hc.
  - destruct (instance_accessor cs) eqn:Hacc.
    + by destruct (markInitOnly_marked f cs r Hc Hacc) as (r2 & -> & _ & Hh & _).
    + by destruct (markInitOnly_fresh f cs r Hc Hacc) as (r1 & -> & _ & _ & Hh & _).
  - unfold markInitOnly, bind, get, modify, ret, throw. simpl.
    by rewrite list_lookup_alter_eq, Hc.
Qed.

Lemma keeps_protos_refl h : keeps_protos h h.
Proof. intros a ob H. by exists ob. Qed.

Lemma keeps_protos_trans h1 h2 h3 :
  keeps_protos h1 h2 → keeps_protos h2 h3 → keeps_protos h1 h3.
Proof.
  intros H1 H2 a ob Ha. destruct (H1 a ob Ha) as (ob2 & Ha2 & Hp2).
  destruct (H2 a ob2 Ha2) as (ob3 & Ha3 & Hp3). exists ob3. split; [done | congruence].
Qed.

Lemma keeps_protos_write h o key v : keeps_protos h (alter (write_field key v) o h).
Proof.
  intros a ob Ha. rewrite list_lookup_alter. case_decide as Hd.
  - subst. rewrite Ha. by exists (write_field key v ob).
  - by exists ob.
Qed.

Lemma keeps_protos_alloc h ob : keeps_protos h (h ++ [ob]).
Proof. intros a ob' Ha. exists ob'. split; [by apply lookup_app_l_Some | done]. Qed.

(** Quiet code runs the same whatever the nested calls would do; it leaves
    every class's slots, every promise and every prototype alone, and what it
    returns satisfies its postcondition. *)
Lemma quiet_exec icb ncb {A} (Q : A → Prop) (p : prog A) :
  quiet Q p → ∀ r,
  (∀ c, foreign c r (snd (exec icb ncb p r))) ∧
  keeps_protos (heap r) (heap (snd (exec icb ncb p r))) ∧
  (∀ x, fst (exec icb ncb p r) = Ok x → Q x).
Proof.
  induction 1 as [a Ha | e | k _ IH | o key v k _ IH | fs k _ IH | s k _ IH
                  | C k _ IH | f k _ IH]; intros r; simpl.
  - split; [intros; apply foreign_refl | split; [apply keeps_protos_refl |]].
    by intros x [= <-].
  - split; [intros; apply foreign_refl | split; [apply keeps_protos_refl | done]].
  - apply IH.
  - destruct (IH (set_heap (alter (write_field key v) o (heap r)) r)) as (Hf & Hp & HQ).
    split; [| split; [| done]].
    + intros c. eapply foreign_trans; [| apply Hf]. by apply foreign_same.
    + eapply keeps_protos_trans; [| apply Hp]. apply keeps_protos_write.
  - destruct (IH (length (heap r)) (set_heap (heap r ++ [Obj None fs]) r)) as (Hf & Hp & HQ).
    split; [| split; [| done]].
    + intros c. eapply foreign_trans; [| apply Hf]. by apply foreign_same.
    + eapply keeps_protos_trans; [| apply Hp]. apply keeps_protos_alloc.
  - destruct (IH (warn s r)) as (Hf & Hp & HQ). split; [| split; [| done]].
    + intros c. eapply foreign_trans; [| apply Hf]. by apply foreign_same.
    + done.
  - pose proof (λ c, foreign_markInitOnly c r C) as Hm.
    pose proof (markInitOnly_heap C r) as Hh.
    destruct (markInitOnly C r) as [res r1]. simpl in *.
    destruct (IH res r1) as (Hf & Hp & HQ). split; [| split; [| done]].
    + intros c. eapply foreign_trans; [apply Hm | apply Hf].
    + by rewrite <- Hh.
  - pose proof (get_instance_realm f r) as Hg.
    destruct (get_instance f r) as [res r1]. simpl in *. subst r1. apply IH.
Qed.

Lemma untouched_foreign c D r r' : foreign c r r' → untouched c D r → untouched c D r'.
Proof.
  intros (Hc & _ & _ & Hd & _) [(cs & Hcs & HD & Hinst & Hfl & Hio) Hno]. split.
  - destruct (Hc cs Hcs) as (cs' & Hcs' & HD' & Hfl' & Hinst' & Hio').
    exists cs'. repeat split; [done | congruence | congruence | congruence | auto].
  - intros d src o Hcell. by eapply Hno, Hd.
Qed.

Lemma untouched_same c D r r' :
  classes r' = classes r → promises r' = promises r → untouched c D r → untouched c D r'.
Proof. unfold untouched. by intros -> ->. Qed.

Lemma untouched_of_idle c cs r :
  classes r !! c = Some cs → isInitOnly cs = true → __instance cs = None →
  __inFlight cs = None → single_handle c r → untouched c (decl cs) r.
Proof.
  intros Hc Hio Hinst Hfl Hs. split; [by exists cs|].
  intros d src o Hcell. destruct (Hs d src o Hcell) as (cs' & Hc' & Hfl' & _). congruence.
Qed.

Lemma single_handle_same c r r' :
  classes r' = classes r → promises r' = promises r → single_handle c r → single_handle c r'.
Proof. unfold single_handle. by intros -> ->. Qed.

Lemma single_handle_untouched c D r : untouched c D r → single_handle c r.
Proof. intros [_ Hno] d src o Hcell. by destruct (Hno d src o). Qed.

(** The last stage of [init] on an untouched class: whatever the initializer
    returned, the class has at most the one handle the call returns. *)
Lemma memoize_or_track_tame c D o maybe r :
  untouched c D r →
  single_handle c (snd (memoize_or_track c o maybe r)) ∧
  calls (snd (memoize_or_track c o maybe r)) = calls r ∧
  (∀ d, fst (memoize_or_track c o maybe r) = Ok (VPromise d) →
        ∃ src, promises (snd (memoize_or_track c o maybe r)) !! d = Some (Derived src c o)).
Proof.
  intros [(cs & Hcs & HD & Hinst & Hfl & Hio) Hno].
  unfold memoize_or_track, bind, get, modify, ret. simpl.
  destruct (isThenable (heap r) maybe); simpl.
  - destruct (Promise_resolve_spec maybe r) as (src & r1 & -> & Hr1). simpl.
    unfold new_promise, bind, get, modify, ret. simpl.
    assert (classes r1 = classes r) as Hcl by (by destruct Hr1 as [-> | ->]).
    assert (calls r1 = calls r) as Hk by (by destruct Hr1 as [-> | ->]).
    assert (∀ d src o, promises r1 !! d ≠ Some (Derived src c o)) as Hno1.
    { intros d src' o' Hcell. destruct Hr1 as [-> | ->]; [by eapply Hno|].
      simpl in Hcell. apply lookup_snoc_Some in Hcell as [[_ Hcell] | [_ Hcell]]; [|done].
      by eapply Hno. }
    split; [| split; [done |]].
    + intros d src' o' Hcell. simpl in Hcell.
      apply lookup_snoc_Some in Hcell as [[_ Hcell] | [Hd _]]; [by destruct (Hno1 _ _ _ Hcell)|].
      exists (write_inFlight (Some (length (promises r1))) cs). simpl.
      rewrite Hcl, list_lookup_alter_eq, Hcs. subst d. by repeat split.
    + intros d [= <-]. exists src. simpl. apply list_lookup_middle. done.
  - split; [| split; [done | done]].
    intros d src o' Hcell. simpl in Hcell. by destruct (Hno _ _ _ Hcell).
Qed.

(** Constructing an instance of a tame class. *)
Lemma class_construct_tame icb ncb c cs args r :
  classes r !! c = Some cs → tame (decl cs) →
  (∀ c', foreign c' r (snd (class_construct icb ncb c args r))) ∧
  (∀ v, fst (class_construct icb ncb c args r) = Ok v →
        v = VObject (length (heap r)) ∧
        ∃ ob, heap (snd (class_construct icb ncb c args r)) !! length (heap r) = Some ob ∧
              proto ob = Some c).
Proof.
  intros Hc [Hctor _]. unfold class_construct, bind, get, modify, ret. simpl. rewrite Hc.
  simpl. set (r0 := set_heap _ r).
  assert (∀ c', foreign c' r r0) as H0 by (intros; by apply foreign_same).
  assert (heap r0 !! length (heap r) = Some (Obj (Some c) (field_defaults (decl cs)))) as Ha.
  { simpl. by apply list_lookup_middle. }
  destruct (user_constructor (decl cs)) as [body|]; simpl.
  - set (r1 := record_call _ r0).
    assert (∀ c', foreign c' r0 r1) as H1 by (intros; by apply foreign_record_call).
    destruct (quiet_exec icb ncb _ _ (Hctor args (length (heap r))) r1) as (Hf & Hp & HQ).
    destruct (exec icb ncb (body args (length (heap r))) r1) as [[v|e] r2]; simpl in *.
    + split; [intros c'; eauto using foreign_trans|].
      intros v' [= <-]. unfold construct_result. rewrite (HQ v eq_refl). split; [done|].
      destruct (Hp _ _ Ha) as (ob & Hob & Hpr). by exists ob.
    + split; [intros c'; eauto using foreign_trans | done].
  - split; [done|]. intros v [= <-]. split; [done|]. by eexists.
Qed.

Lemma initializer_runs_record c o this args r :
  initializer_runs c (record_call (RanInitializer c o this args) r)
  = S (initializer_runs c r).
Proof.
  unfold initializer_runs. simpl.
  rewrite initializer_calls_app, initializer_calls_self, length_app. simpl. lia.
Qed.

Lemma initializer_runs_foreign c r r' :
  foreign c r r' → initializer_runs c r' = initializer_runs c r.
Proof. intros (_ & _ & _ & _ & Hk). unfold initializer_runs. by rewrite Hk. Qed.

(** Calling the initializer of a tame class. *)
Lemma apply_initializer_tame icb ncb c D body o args r :
  untouched c D r → (∀ args o, quiet (λ _ : completion, True) (body args o)) →
  untouched c D (snd (apply_initializer icb ncb c body o args r)) ∧
  initializer_runs c (snd (apply_initializer icb ncb c body o args r))
  = S (initializer_runs c r).
Proof.
  intros Hu Hq. unfold apply_initializer, bind, get, modify, ret. simpl.
  match goal with |- context [exec _ _ _ ?x] => set (r2 := x) end.
  assert (untouched c D r2) as Hu2 by (by apply (untouched_same c D r)).
  assert (initializer_runs c r2 = S (initializer_runs c r)) as Hk2
    by apply initializer_runs_record.
  destruct (quiet_exec icb ncb _ _ (Hq args o) r2) as (Hf & _ & _).
  destruct (exec icb ncb (body args o) r2) as [[[v|k]|e] r3]; simpl in *.
  - split; [by eapply untouched_foreign | by rewrite (initializer_runs_foreign c r2 r3)].
  - unfold new_promise, bind, get, modify, ret. simpl. split.
    + eapply untouched_foreign; [by apply foreign_new_promise|].
      by eapply untouched_foreign.
    + change (initializer_runs c r3 = S (initializer_runs c r)).
      by rewrite (initializer_runs_foreign c r2 r3).
  - split; [by eapply untouched_foreign | by rewrite (initializer_runs_foreign c r2 r3)].
Qed.

(** An initialization attempt of a tame, untouched class: the class ends
    with at most one handle, the one the call returns, and the initializer
    ran once. *)
Lemma initialize_tame icb ncb f cs args r :
  untouched (class_of f) (decl cs) r → tame (decl cs) →
  single_handle (class_of f) (snd (initialize icb ncb f cs args r)) ∧
  (∀ d, fst (initialize icb ncb f cs args r) = Ok (VPromise d) →
        ∃ src o,
          promises (snd (initialize icb ncb f cs args r)) !! d
            = Some (Derived src (class_of f) o) ∧
          initializer_runs (class_of f) (snd (initialize icb ncb f cs args r))
            = S (initializer_runs (class_of f) r)).
Proof.
  intros Hu Ht. pose proof Hu as [(cs0 & Hcs0 & HD & Hinst & Hfl & Hio) Hno].
  unfold initialize, bind, get. destruct f as [c | t]; simpl in *.
  - assert (tame (decl cs0)) as Ht0 by (by rewrite HD).
    destruct (class_construct_tame icb ncb c cs0 [] r Hcs0 Ht0) as [Hf Hv].
    destruct (class_construct icb ncb c [] r) as [[v|e] r1]; simpl in *;
      [| split; [eapply single_handle_untouched, untouched_foreign; eauto | done]].
    destruct (Hv v eq_refl) as (-> & ob & Hob & Hpr).
    assert (untouched c (decl cs) r1) as Hu1 by (eapply untouched_foreign; eauto).
    pose proof Hu1 as [(cs1 & Hcs1 & HD1 & _) _].
    assert (get_initializer r1 (VObject (length (heap r))) = proto_initializer (decl cs))
      as Hgi by (unfold get_initializer; by rewrite Hob, Hpr, Hcs1, HD1).
    rewrite Hgi. destruct Ht as [_ Hq].
    destruct (proto_initializer (decl cs)) as [[body|w]|]; simpl;
      [| split; [by eapply single_handle_untouched | done]..].
    destruct (apply_initializer_tame icb ncb c (decl cs) body (length (heap r)) args r1
                Hu1 Hq) as [Hu2 Hk2].
    pose proof (initializer_runs_foreign c r r1 (Hf c)) as Hk1.
    destruct (apply_initializer icb ncb c body (length (heap r)) args r1)
      as [[maybe|e] r2]; simpl in *;
      [| split; [by eapply single_handle_untouched | done]].
    destruct (memoize_or_track_tame c (decl cs) (length (heap r)) maybe r2 Hu2)
      as (Hs & Hk & Hd).
    split; [done|]. intros d Hres. destruct (Hd d Hres) as [src Hcell].
    exists src, (length (heap r)). split; [done|].
    unfold initializer_runs in *. rewrite Hk. congruence.
  - unfold handler_construct, bind, get, throw. simpl. rewrite Hcs0. simpl. rewrite Hio.
    simpl. split; [by eapply single_handle_untouched | done].
Qed.

(** ** What calls do to a tame class *)

Lemma tame_at_cstep c r r' : cstep c r r' → tame_at c r → tame_at c r'.
Proof.
  intros Hs Ht cs' Hc'. destruct (classes r !! c) as [cs|] eqn:Hc.
  - destruct (cstep_kept _ _ _ Hs) as [Hk _]. destruct (Hk cs Hc) as (cs2 & Hc2 & HD).
    assert (cs2 = cs') as -> by congruence. rewrite HD. by apply Ht.
  - destruct Hs as [(_ & Hn & _) | (cs & Hcs & _) _ _ _]; [| congruence].
    rewrite (Hn Hc) in Hc'. done.
Qed.

Lemma tame_at_csteps c r r' : csteps c r r' → tame_at c r → tame_at c r'.
Proof. induction 1; eauto using tame_at_cstep. Qed.

Lemma memoize_or_track_foreign c c' o maybe r :
  c' ≠ c → foreign c r (snd (memoize_or_track c' o maybe r)).
Proof.
  intros Hne. unfold memoize_or_track, bind, get, modify, ret. simpl.
  destruct (isThenable (heap r) maybe); simpl.
  - destruct (Promise_resolve_spec maybe r) as (src & r1 & -> & Hr1). simpl.
    unfold new_promise, bind, get, modify, ret. simpl.
    assert (foreign c r r1) as H1.
    { destruct Hr1 as [-> | ->]; [apply foreign_refl | by apply foreign_new_promise]. }
    eapply foreign_trans; [exact H1|].
    eapply foreign_trans; [apply (foreign_new_promise c (Derived src c' o)); congruence|].
    apply (foreign_alter c c'). done.
  - apply (foreign_alter c c'). done.
Qed.

Section Tame.

Variable c : cid.
Variable init_cb : operand → list value → M value.
Variable new_cb : callable → list value → M value.
Hypothesis init_cb_csteps : ∀ ctor args r,
  single_handle c r ∧ tame_at c r → csteps c r (snd (init_cb ctor args r)).
Hypothesis new_cb_csteps : ∀ f args r,
  single_handle c r ∧ tame_at c r → csteps c r (snd (new_cb f args r)).
Hypothesis init_cb_extends : ∀ ctor args r, extends r (snd (init_cb ctor args r)).
Hypothesis new_cb_extends : ∀ f args r, extends r (snd (new_cb f args r)).

Lemma csteps_pres r r' :
  single_handle c r ∧ tame_at c r → csteps c r r' → single_handle c r' ∧ tame_at c r'.
Proof. intros [Hs Ht] H. split; [by eapply single_handle_csteps | by eapply tame_at_csteps]. Qed.

Lemma exec_csteps {A} (p : prog A) r :
  single_handle c r ∧ tame_at c r → csteps c r (snd (exec init_cb new_cb p r)).
Proof.
  apply (exec_frame (λ r, single_handle c r ∧ tame_at c r) (csteps c));
    try (intros; by apply csteps_foreign, foreign_same);
    try (intros; apply csteps_foreign, foreign_markInitOnly);
    try (intros; by apply csteps_foreign, foreign_record_call);
    intros;
    first [apply csteps_refl | by eapply csteps_trans | by eapply csteps_pres
          | by apply init_cb_csteps | by apply new_cb_csteps].
Qed.

Lemma Reflect_construct_csteps f args r :
  single_handle c r ∧ tame_at c r →
  csteps c r (snd (Reflect_construct init_cb new_cb f args r)).
Proof.
  apply (Reflect_construct_frame (λ r, single_handle c r ∧ tame_at c r) (csteps c));
    try (intros; by apply csteps_foreign, foreign_same);
    try (intros; apply csteps_foreign, foreign_markInitOnly);
    try (intros; by apply csteps_foreign, foreign_record_call);
    intros;
    first [apply csteps_refl | by eapply csteps_trans | by eapply csteps_pres
          | by apply init_cb_csteps | by apply new_cb_csteps].
Qed.

Lemma apply_initializer_csteps c' body o args r :
  c' ≠ c → single_handle c r ∧ tame_at c r →
  csteps c r (snd (apply_initializer init_cb new_cb c' body o args r)).
Proof.
  intros Hne HP. unfold apply_initializer, bind, get, modify, ret. simpl.
  match goal with |- context [exec _ _ _ ?x] => set (r2 := x) end.
  assert (csteps c r r2) as H2.
  { apply csteps_foreign, foreign_record_call. by apply initializer_calls_other. }
  pose proof (exec_csteps (body args o) r2 (csteps_pres _ _ HP H2)) as H3.
  destruct (exec init_cb new_cb (body args o) r2) as [[[v|k]|e] r3]; simpl in *;
    [by eapply csteps_trans | | by eapply csteps_trans].
  unfold new_promise, bind, get, modify, ret. simpl.
  eapply csteps_trans; [exact H2|]. eapply csteps_trans; [exact H3|].
  by apply csteps_foreign, foreign_new_promise.
Qed.

Lemma init_body_csteps ctor args r :
  single_handle c r ∧ tame_at c r →
  csteps c r (snd (init_body init_cb new_cb ctor args r)).
Proof.
  intros HP. pose proof (init_body_extends init_cb new_cb ctor args r
                           init_cb_extends new_cb_extends) as Hext.
  destruct ctor as [|f]; [apply csteps_refl|].
  revert Hext. unfold init_body, bind, get, throw, ret. simpl.
  destruct (classes r !! class_of f) as [cs|] eqn:Hc; simpl; [| intros; apply csteps_refl].
  destruct (isInitOnly cs) eqn:Hio; simpl; [| intros; apply csteps_refl].
  destruct (__instance cs) as [o|] eqn:Hinst; simpl; [intros; apply csteps_refl|].
  destruct (__inFlight cs) as [p|] eqn:Hfl; simpl; [intros; apply csteps_refl|].
  intros (Hdecl & _ & Hprom & _).
  destruct (decide (class_of f = c)) as [Heq | Hne].
  - destruct HP as [Hs Ht]. subst c.
    destruct (initialize_tame init_cb new_cb f cs args r) as [Hs' _];
      [by apply untouched_of_idle | by eapply Ht |].
    apply csteps_one, cstep_attempt; [by exists cs | done | by apply Hdecl | done].
  - unfold initialize, bind, get. simpl.
    pose proof (Reflect_construct_csteps f [] r HP) as H1.
    destruct (Reflect_construct init_cb new_cb f [] r) as [[o|e] r1]; simpl in *; [| done].
    destruct o as [| | | | | |a| |]; simpl; try done.
    destruct (get_initializer r1 (VObject a)) as [[body|w]|]; simpl; try done.
    pose proof (apply_initializer_csteps (class_of f) body a args r1 Hne
                  (csteps_pres _ _ HP H1)) as H2.
    destruct (apply_initializer init_cb new_cb (class_of f) body a args r1)
      as [[maybe|e] r2]; simpl in *; [| by eapply csteps_trans].
    eapply csteps_trans; [exact H1|]. eapply csteps_trans; [exact H2|].
    by apply csteps_foreign, memoize_or_track_foreign.
Qed.

End Tame.

Lemma init_new_csteps c stack :
  (∀ ctor args r, single_handle c r ∧ tame_at c r → csteps c r (snd (init stack ctor args r))) ∧
  (∀ f args r, single_handle c r ∧ tame_at c r → csteps c r (snd (new stack f args r))).
Proof.
  induction stack as [|n [IHi IHn]]; simpl.
  - split; intros; apply csteps_refl.
  - destruct (init_new_extends n) as [Hei Hen].
    split; intros; [by apply init_body_csteps | by apply Reflect_construct_csteps].
Qed.

Lemma run_code_csteps c {A} stack (p : prog A) r :
  single_handle c r ∧ tame_at c r → csteps c r (snd (run_code stack p r)).
Proof.
  destruct (init_new_csteps c stack) as [Hi Hn]. destruct (init_new_extends stack) as [Hei Hen].
  by apply exec_csteps.
Qed.

(** ** Events *)

Lemma single_handle_settle c q cell r :
  (∀ src o, cell ≠ Derived src c o) → single_handle c r →
  single_handle c (set_promises (<[q := cell]> (promises r)) r).
Proof.
  intros Hcell Hs d src o Hd. simpl in *.
  apply list_lookup_insert_Some in Hd as [(_ & Hd & _) | [_ Hd]]; [by destruct (Hcell src o)|].
  by apply (Hs d src o).
Qed.

Lemma single_handle_declare c D r : single_handle c r → single_handle c (declare D r).
Proof.
  intros Hs d src o Hd. destruct (Hs d src o Hd) as (cs & Hc & H).
  exists cs. split; [| done]. simpl. by apply lookup_app_l_Some.
Qed.

Lemma single_handle_react c d r : single_handle c r → single_handle c (react d r).
Proof.
  intros Hs. unfold react.
  destruct (promises r !! d) as [[k | | src c' o | s]|] eqn:Hd; try done.
  destruct (promises r !! src) as [[k | | src' c'' o' | [v|e]]|]; try done.
  - set (cell := if isThenable _ _ then _ else _).
    intros d' src' o' Hd'. simpl in Hd'.
    apply list_lookup_insert_Some in Hd' as [(_ & Hd' & _) | [Hne Hd']];
      [unfold cell in Hd'; by destruct (isThenable _ _)|].
    destruct (Hs d' src' o' Hd') as (cs & Hc & Hfl & Hinst & Hio).
    destruct (decide (c' = c)) as [-> | Hc'].
    + destruct (Hs d src o Hd) as (cs2 & Hc2 & Hfl2 & _). congruence.
    + exists cs. split; [| done]. simpl. by rewrite !list_lookup_alter_ne.
  - by apply single_handle_settle.
Qed.

(** Every event leaves a tame class with at most one handle. *)
Lemma step_single_handle stack e c r :
  single_handle c r → tame_at c r → single_handle c (step stack e r).
Proof.
  intros Hs Ht. destruct (init_new_csteps c stack) as [Hi Hn].
  destruct e as [D | C | ctor args | f args | f | fs | o k v | p | q | q s | d]; simpl.
  - by apply single_handle_declare.
  - eapply single_handle_foreign; [apply foreign_markInitOnly | done].
  - eapply single_handle_csteps; [by apply Hi | done].
  - eapply single_handle_csteps; [by apply Hn | done].
  - by rewrite get_instance_realm.
  - by apply (single_handle_same c r).
  - by apply (single_handle_same c r).
  - eapply single_handle_csteps; [by apply run_code_csteps | done].
  - unfold resume. destruct (promises r !! q) as [[k | | src c' o | s]|]; try done.
    pose proof (run_code_csteps c stack k r (conj Hs Ht)) as H1.
    destruct (run_code stack k r) as [res r1]. simpl in H1.
    apply single_handle_settle; [| by eapply single_handle_csteps].
    intros src o. destruct res as [v|e]; [by destruct (isThenable _ _) | done].
  - unfold settle_external. destruct (promises r !! q) as [[k | | src c' o | s']|]; try done.
    by apply single_handle_settle.
  - by apply single_handle_react.
Qed.

Lemma keeps_decls_refl r : keeps_decls r r.
Proof. intros c cs H. by exists cs. Qed.

Lemma keeps_decls_trans r1 r2 r3 : keeps_decls r1 r2 → keeps_decls r2 r3 → keeps_decls r1 r3.
Proof.
  intros H1 H2 c cs Hc. destruct (H1 c cs Hc) as (cs2 & Hc2 & HD2).
  destruct (H2 c cs2 Hc2) as (cs3 & Hc3 & HD3). exists cs3. split; [done | congruence].
Qed.

Lemma keeps_decls_extends r r' : extends r r' → keeps_decls r r'.
Proof. by intros [H _]. Qed.

Lemma keeps_decls_same r r' : classes r' = classes r → keeps_decls r r'.
Proof. intros Heq c cs H. exists cs. by rewrite Heq. Qed.

Lemma keeps_decls_alter c g r :
  (∀ cs, decl (g cs) = decl cs) → keeps_decls r (update_class c g r).
Proof.
  intros Hg c' cs Hc. simpl. rewrite list_lookup_alter. case_decide.
  - subst. rewrite Hc. by exists (g cs).
  - by exists cs.
Qed.

(** No event changes the declaration of a class. *)
Lemma step_keeps_decls stack e r : keeps_decls r (step stack e r).
Proof.
  destruct (init_new_extends stack) as [Hi Hn].
  destruct e as [D | C | ctor args | f args | f | fs | o k v | p | q | q s | d]; simpl.
  - intros c cs Hc. exists cs. split; [| done]. simpl. by apply lookup_app_l_Some.
  - apply keeps_decls_extends, extends_markInitOnly.
  - apply keeps_decls_extends, Hi.
  - apply keeps_decls_extends, Hn.
  - rewrite get_instance_realm. apply keeps_decls_refl.
  - by apply keeps_decls_same.
  - by apply keeps_decls_same.
  - apply keeps_decls_extends, run_code_extends.
  - unfold resume. destruct (promises r !! q) as [[k | | src c' o | s]|];
      try apply keeps_decls_refl.
    pose proof (run_code_extends stack k r) as H1.
    destruct (run_code stack k r) as [res r1]. simpl in H1.
    eapply keeps_decls_trans; [by apply keeps_decls_extends | by apply keeps_decls_same].
  - unfold settle_external. destruct (promises r !! q) as [[k | | src c' o | s']|];
      try apply keeps_decls_refl. by apply keeps_decls_same.
  - unfold react. destruct (promises r !! d) as [[k | | src c' o | s]|];
      try apply keeps_decls_refl.
    destruct (promises r !! src) as [[k | | src' c'' o' | [v|e]]|];
      try apply keeps_decls_refl; [| by apply keeps_decls_same].
    eapply keeps_decls_trans; [| by apply keeps_decls_same].
    unfold then_callback.
    eapply keeps_decls_trans; by apply keeps_decls_alter.
Qed.

Lemma run_keeps_decls stack tr r : keeps_decls r (run stack tr r).
Proof.
  revert r. induction tr as [|e tr IH]; intros r; [apply keeps_decls_refl|].
  rewrite run_cons. eapply keeps_decls_trans; [apply step_keeps_decls | apply IH].
Qed.

Lemma tame_at_back c r r' : keeps_decls r r' → tame_at c r' → tame_at c r.
Proof. intros Hk Ht cs Hc. destruct (Hk c cs Hc) as (cs' & Hc' & <-). by eapply Ht. Qed.

Lemma tame_at_forward c cs r r' :
  classes r !! c = Some cs → keeps_decls r r' → tame_at c r → tame_at c r'.
Proof.
  intros Hc Hk Ht cs' Hc'. destruct (Hk c cs Hc) as (cs2 & Hc2 & HD).
  assert (cs2 = cs') as -> by congruence. rewrite HD. by eapply Ht.
Qed.

(** In every state a program can reach, a tame class has at most one
    handle. *)
Lemma run_single_handle stack tr c r :
  single_handle c r → tame_at c (run stack tr r) → single_handle c (run stack tr r).
Proof.
  revert r. induction tr as [|e tr IH]; intros r Hs Ht; [done|].
  rewrite run_cons in *. apply IH; [| done].
  apply step_single_handle; [done|].
  eapply tame_at_back; [| exact Ht].
  eapply keeps_decls_trans; [apply step_keeps_decls | apply run_keeps_decls].
Qed.

Lemma single_handle_empty c : single_handle c empty_realm.
Proof. intros d src o H. done. Qed.
(** ** Settlement of the handle *)

(** The reaction to a rejected source rejects the derived promise with the
    same reason and writes nothing on the class -- neither an instance nor a
    cleared [__inFlight]. *)
Lemma react_rejection_keeps_registry (d src : pref) (c : cid) (o : ref) (e : value)
    (r : realm) :
  promises r !! d = Some (Derived src c o) →
  promises r !! src = Some (Settled (Reject e)) →
  classes (react d r) = classes r ∧
  promises (react d r) !! d = Some (Settled (Reject e)).
Proof.
  intros Hd Hsrc. unfold react. rewrite Hd, Hsrc. simpl. split; [done|].
  apply list_lookup_insert_eq. by eapply lookup_lt_Some.
Qed.

(** The reaction to a fulfilled source runs the callback: the handle is
    cleared, the allocated object is memoized, and the derived promise is
    fulfilled with that object (whatever the source was fulfilled with). *)
Lemma react_fulfilment_memoizes (d src : pref) (c : cid) (o : ref) (v : value)
    (cs : class_state) (r : realm) :
  promises r !! d = Some (Derived src c o) →
  promises r !! src = Some (Settled (Fulfill v)) →
  classes r !! c = Some cs →
  isThenable (heap r) (VObject o) = false →
  promises (react d r) !! d = Some (Settled (Fulfill (VObject o))) ∧
  classes (react d r) !! c
    = Some (ClassState (decl cs) (__isInitOnly cs) (Some o) None (instance_accessor cs)).
Proof.
  intros Hd Hsrc Hc Hth. unfold react. rewrite Hd, Hsrc. simpl. rewrite Hth. split.
  - apply list_lookup_insert_eq. by eapply lookup_lt_Some.
  - simpl. by rewrite !list_lookup_alter_eq, Hc.
Qed.

(** ** A class that has its handle or its instance *)

Lemma undisturbed_refl c r : undisturbed c r r.
Proof.
  split; [| done]. intros cs Hc. exists cs. split; [done | apply keeps_slots_refl].
Qed.

Lemma undisturbed_trans c r1 r2 r3 :
  undisturbed c r1 r2 → undisturbed c r2 r3 → undisturbed c r1 r3.
Proof.
  intros (Hc1 & Hk1 & Hp1) (Hc2 & Hk2 & Hp2). split; [| split; [congruence | auto]].
  intros cs Hc. destruct (Hc1 cs Hc) as (cs2 & Hcs2 & Hk).
  destruct (Hc2 cs2 Hcs2) as (cs3 & Hcs3 & Hk'). exists cs3.
  split; [done | by eapply keeps_slots_trans].
Qed.

Lemma undisturbed_foreign c r r' : foreign c r r' → undisturbed c r r'.
Proof. intros (Hc & _ & Hp & _ & Hk). split; [done | split; [done | auto]]. Qed.

Lemma undisturbed_same c r r' :
  classes r' = classes r → promises r' = promises r → calls r' = calls r →
  undisturbed c r r'.
Proof.
  intros Hcl Hp Hk. unfold undisturbed. rewrite Hcl, Hp, Hk. apply undisturbed_refl.
Qed.

Lemma undisturbed_settle c q cell r :
  (∀ src o, promises r !! q ≠ Some (Derived src c o)) →
  undisturbed c r (set_promises (<[q := cell]> (promises r)) r).
Proof.
  intros Hq. split; [| split; [done |]].
  - intros cs Hc. exists cs. split; [done | apply keeps_slots_refl].
  - intros d src o Hd. simpl. rewrite list_lookup_insert_ne; [done|].
    intros ->. by destruct (Hq src o).
Qed.

Lemma busy_not_idle c r : busy c r → ¬ idle c r.
Proof.
  intros (cs & Hc & Hb) (cs' & Hc' & Hinst & Hfl).
  assert (cs' = cs) as -> by congruence. by destruct Hb.
Qed.

Lemma busy_foreign c r r' : foreign c r r' → busy c r → busy c r'.
Proof.
  intros (Hc & _) (cs & Hcs & Hb). destruct (Hc cs Hcs) as (cs' & Hcs' & _ & Hfl & Hinst & _).
  exists cs'. split; [done|]. by rewrite Hfl, Hinst.
Qed.

(** While a class has its handle or its instance, no call starts an
    initialization attempt on it. *)
Lemma csteps_busy c r r' : csteps c r r' → busy c r → foreign c r r'.
Proof.
  induction 1 as [| r1 r2 r3 Hs _ IH]; intros Hb; [apply foreign_refl|].
  destruct Hs as [Hf | Hidle _ _ _]; [| by destruct (busy_not_idle c r1)].
  eapply foreign_trans; [exact Hf|]. apply IH. by eapply busy_foreign.
Qed.

(** Every event other than the reaction job of a handle of class [c] leaves
    a tame, busy class [c] as it is. *)
Lemma step_undisturbed stack e c r :
  single_handle c r → tame_at c r → busy c r →
  (∀ d src o, e = React d → promises r !! d ≠ Some (Derived src c o)) →
  undisturbed c r (step stack e r).
Proof.
  intros Hs Ht Hb Hre. destruct (init_new_csteps c stack) as [Hi Hn].
  destruct e as [D | C | ctor args | f args | f | fs | o k v | p | q | q s | d]; simpl.
  - split; [| done]. intros cs Hc. exists cs.
    split; [simpl; by apply lookup_app_l_Some | apply keeps_slots_refl].
  - apply undisturbed_foreign, foreign_markInitOnly.
  - apply undisturbed_foreign, csteps_busy; [by apply Hi | done].
  - apply undisturbed_foreign, csteps_busy; [by apply Hn | done].
  - rewrite get_instance_realm. apply undisturbed_refl.
  - by apply undisturbed_same.
  - by apply undisturbed_same.
  - apply undisturbed_foreign, csteps_busy; [by apply run_code_csteps | done].
  - unfold resume.
    destruct (promises r !! q) as [[k | | src c' o | s]|] eqn:Hq; try apply undisturbed_refl.
    pose proof (run_code_csteps c stack k r (conj Hs Ht)) as H1.
    destruct (run_code stack k r) as [res r1]. simpl in H1.
    apply csteps_busy in H1; [| done].
    eapply undisturbed_trans; [by apply undisturbed_foreign|].
    apply undisturbed_settle. intros src o Hq1.
    destruct H1 as (_ & _ & Hp & _). rewrite (Hp _ _ Hq) in Hq1. done.
  - unfold settle_external.
    destruct (promises r !! q) as [[k | | src c' o | s']|] eqn:Hq; try apply undisturbed_refl.
    apply undisturbed_settle. intros src o Hq1. congruence.
  - unfold react.
    destruct (promises r !! d) as [[k | | src c' o | s]|] eqn:Hd; try apply undisturbed_refl.
    assert (c' ≠ c) as Hne by (intros ->; by destruct (Hre d src o eq_refl)).
    destruct (promises r !! src) as [[k | | src' c'' o' | [v|e]]|];
      try apply undisturbed_refl.
    + eapply undisturbed_trans; [| apply undisturbed_settle].
      * unfold then_callback. eapply undisturbed_trans;
          apply undisturbed_foreign, (foreign_alter c c'); done.
      * intros src' o'. simpl. rewrite Hd. congruence.
    + apply undisturbed_settle. intros src' o'. rewrite Hd. congruence.
Qed.

(** ** Single flight *)

Lemma first_init_tame stack f args r d r1 :
  single_handle (class_of f) r → tame_at (class_of f) r →
  uninitialized (class_of f) r = true →
  init stack (Function f) args r = (Ok (VPromise d), r1) →
  single_handle (class_of f) r1 ∧ tame_at (class_of f) r1 ∧
  ∃ src o, promises r1 !! d = Some (Derived src (class_of f) o) ∧
           initializer_runs (class_of f) r1 = S (initializer_runs (class_of f) r).
Proof.
  intros Hs Ht Hun Hinit.
  apply uninitialized_spec in Hun as (cs & Hc & Hinst & Hfl).
  destruct stack as [|n]; [done|].
  destruct (init_new_extends (S n)) as [Hext _].
  specialize (Hext (Function f) args r). rewrite Hinit in Hext. simpl in Hext.
  simpl in Hinit. unfold init_body, bind, get, throw, ret in Hinit. simpl in Hinit.
  rewrite Hc in Hinit. simpl in Hinit.
  destruct (isInitOnly cs) eqn:Hio; simpl in Hinit; [| done].
  rewrite Hinst, Hfl in Hinit.
  destruct (initialize_tame (init n) (new n) f cs args r) as [Hs1 Hd];
    [by apply untouched_of_idle | by eapply Ht |].
  rewrite Hinit in Hs1, Hd. simpl in *.
  split; [done|]. split; [| by apply Hd].
  eapply tame_at_forward; [exact Hc | by apply keeps_decls_extends | done].
Qed.

Lemma pending_run stack tr c d src o r :
  single_handle c r → tame_at c r → promises r !! d = Some (Derived src c o) →
  React d ∉ tr →
  single_handle c (run stack tr r) ∧
  promises (run stack tr r) !! d = Some (Derived src c o) ∧
  initializer_runs c (run stack tr r) = initializer_runs c r.
Proof.
  revert r. induction tr as [|e tr IH]; intros r Hs Ht Hd Hnot; [done|].
  rewrite run_cons. apply not_elem_of_cons in Hnot as [Hne Hnot].
  destruct (Hs d src o Hd) as (cs & Hc & Hfl & Hinst & Hio).
  assert (undisturbed c r (step stack e r)) as (_ & Hk & Hp).
  { apply step_undisturbed; [done | done | |].
    - exists cs. split; [done|]. right. congruence.
    - intros d' src' o' -> Hd'. destruct (Hs d' src' o' Hd') as (cs' & Hc' & Hfl' & _).
      apply Hne. f_equal. congruence. }
  destruct (IH (step stack e r)) as (Hs' & Hd' & Hk'); [| | by apply Hp | done |].
  - by apply step_single_handle.
  - eapply tame_at_forward; [exact Hc | apply step_keeps_decls | done].
  - split; [done|]. split; [done|]. rewrite Hk'. unfold initializer_runs. by rewrite Hk.
Qed.

(** ** Once an instance is memoized *)

Lemma memoized_run stack tr c o r :
  single_handle c r → tame_at c r → init_only c r = true → instance_of c r = Some o →
  init_only c (run stack tr r) = true ∧ instance_of c (run stack tr r) = Some o.
Proof.
  revert r. induction tr as [|e tr IH]; intros r Hs Ht Hio Hinst; [done|].
  rewrite run_cons. unfold init_only, instance_of in Hio, Hinst.
  destruct (classes r !! c) as [cs|] eqn:Hc; [| done]. simpl in Hinst.
  assert (undisturbed c r (step stack e r)) as (Hcl & _ & _).
  { apply step_undisturbed; [done | done | |].
    - exists cs. split; [done|]. left. congruence.
    - intros d' src' o' -> Hd'. destruct (Hs d' src' o' Hd') as (cs' & Hc' & _ & Hinst' & _).
      congruence. }
  destruct (Hcl cs Hc) as (cs' & Hc' & _ & _ & Hinst' & Hio').
  apply IH.
  - by apply step_single_handle.
  - eapply tame_at_forward; [exact Hc | apply step_keeps_decls | done].
  - unfold init_only. rewrite Hc'. auto.
  - unfold instance_of. rewrite Hc'. simpl. congruence.
Qed.

Lemma DB_tame : tame Examples.DB.
Proof. split; [done|]. intros args o. simpl. by apply quiet_Ret. Qed.

Lemma App_tame : tame Examples.App.
Proof.
  split; [done|]. intros args o. simpl. unfold Examples.App_initializer.
  destruct (default VUndefined (head args)); repeat constructor.
Qed.







(** ** More on tame classes *)



Lemma instance_run stack tr c o r :
  single_handle c r → tame_at c r → instance_of c r = Some o →
  instance_of c (run stack tr r) = Some o ∧
  initializer_runs c (run stack tr r) = initializer_runs c r.
Proof.
  revert r. induction tr as [|e tr IH]; intros r Hs Ht Hinst; [done|].
  rewrite run_cons. unfold instance_of in Hinst.
  destruct (classes r !! c) as [cs|] eqn:Hc; [| done]. simpl in Hinst.
  assert (undisturbed c r (step stack e r)) as (Hcl & Hk & _).
  { apply step_undisturbed; [done | done | |].
    - exists cs. split; [done|]. left. congruence.
    - intros d' src' o' -> Hd'. destruct (Hs d' src' o' Hd') as (cs' & Hc' & _ & Hinst' & _).
      congruence. }
  destruct (Hcl cs Hc) as (cs' & Hc' & _ & _ & Hinst' & _).
  destruct (IH (step stack e r)) as [H1 H2].
  - by apply step_single_handle.
  - eapply tame_at_forward; [exact Hc | apply step_keeps_decls | done].
  - unfold instance_of. rewrite Hc'. simpl. congruence.
  - split; [done|]. rewrite H2. unfold initializer_runs. by rewrite Hk.
Qed.



(** A settled promise stays as it is. *)
Lemma step_settled stack e d s r :
  promises r !! d = Some (Settled s) → promises (step stack e r) !! d = Some (Settled s).
Proof.
  intros Hd. destruct (init_new_extends stack) as [Hi Hn].
  destruct e as [D | C | ctor args | f args | f | fs | o k v | p | q | q s' | d']; simpl;
    try done.
  - pose proof (extends_markInitOnly r C) as (_ & _ & Hp & _). by apply Hp.
  - by apply (Hi ctor args r).
  - by apply (Hn f args r).
  - by rewrite get_instance_realm.
  - by apply (run_code_extends stack p r).
  - unfold resume.
    destruct (promises r !! q) as [[k | | src c' o | s']|] eqn:Hq; try done.
    pose proof (run_code_extends stack k r) as (_ & _ & Hp & _).
    destruct (run_code stack k r) as [res r1]. simpl in *.
    rewrite list_lookup_insert_ne; [by apply Hp | congruence].
  - unfold settle_external.
    destruct (promises r !! q) as [[k | | src c' o | s'']|] eqn:Hq; try done.
    simpl. rewrite list_lookup_insert_ne; [done | congruence].
  - unfold react.
    destruct (promises r !! d') as [[k | | src c' o | s']|] eqn:Hq; try done.
    destruct (promises r !! src) as [[k | | src' c'' o' | [v|e]]|]; try done; simpl;
      (rewrite list_lookup_insert_ne; [done | congruence]).
Qed.

Lemma rejected_run stack tr c d e r :
  single_handle c r → tame_at c r → promises r !! d = Some (Settled (Reject e)) →
  inFlight_of c r = Some d →
  promises (run stack tr r) !! d = Some (Settled (Reject e)) ∧
  (∃ cs, classes (run stack tr r) !! c = Some cs ∧ __inFlight cs = Some d ∧
         ∀ cs0, classes r !! c = Some cs0 → keeps_slots cs0 cs) ∧
  initializer_runs c (run stack tr r) = initializer_runs c r.
Proof.
  revert r. induction tr as [|e' tr IH]; intros r Hs Ht Hd Hfl.
  { simpl. split; [done|]. split; [| done]. unfold inFlight_of in Hfl.
    destruct (classes r !! c) as [cs|]; [| done]. exists cs.
    split; [done|]. split; [done|]. intros ? [= <-]. apply keeps_slots_refl. }
  rewrite run_cons. unfold inFlight_of in Hfl.
  destruct (classes r !! c) as [cs|] eqn:Hc; [| done]. simpl in Hfl.
  assert (undisturbed c r (step stack e' r)) as (Hcl & Hk & _).
  { apply step_undisturbed; [done | done | |].
    - exists cs. split; [done|]. right. congruence.
    - intros d' src' o' -> Hd'. destruct (Hs d' src' o' Hd') as (cs' & Hc' & Hfl' & _).
      congruence. }
  destruct (Hcl cs Hc) as (cs' & Hc' & Hkeep).
  destruct (IH (step stack e' r)) as (H1 & (cs2 & Hc2 & Hfl2 & Hkeep2) & H3).
  - by apply step_single_handle.
  - eapply tame_at_forward; [exact Hc | apply step_keeps_decls | done].
  - by apply step_settled.
  - unfold inFlight_of. rewrite Hc'. simpl. destruct Hkeep as (_ & -> & _). done.
  - split; [done|]. split.
    + exists cs2. split; [done|]. split; [done|]. intros ? [= <-].
      eapply keeps_slots_trans; [exact Hkeep | by apply Hkeep2].
    + rewrite H3. unfold initializer_runs. by rewrite Hk.
Qed.

Lemma Flaky_tame : tame FailureExample.Flaky.
Proof. split; [done|]. intros args o. simpl. by apply quiet_Ret. Qed.


